(** * jet-queue: a Redis-backed job queue and its worker

    A shallow embedding of the producer ([Queue.ts]), the worker
    ([Worker.ts]), the two server-side scripts ([scripts.ts]) and the
    backoff function ([backoff.ts]), together with the properties the
    specification states about them.

    Modelling conventions.
    - A JavaScript [number] is an integer ([Z]); NaN, infinities and
      fractions are outside the model.  [x || d] on numbers is [or_num].
    - The key-space of one queue ([prefix:name:...]) is a record [Store]:
      the two lists, the sorted set, the job hashes (keyed by job id) and
      the pause flag.
    - Payloads ([Job.data], [returnValue]) are opaque to the queue and
      are kept as the serialized text.  [JSON.stringify] followed by
      [JSON.parse] of a job record is the identity on [Job].
    - [Date.now()] and [uuidv4()] are inputs of the operations.
    - A method is a computation in a state-and-exception monad over
      [World]: the Redis store and the log of observable actions
      (transactions sent, scripts called, events emitted, sleeps). *)

From stdpp Require Import gmap strings list sorting fin_maps pretty.
From Stdlib Require Import ZArith.

Local Open Scope string_scope.
Local Open Scope list_scope.
Local Open Scope Z_scope.

(** ** src/types/index.ts and src/errors/index.ts *)

Module Types.

Module Backoff.
Record t := mk { type : string; delay : Z }.
End Backoff.

(** [removeOnComplete] and [removeOnFail] are [boolean | number]. *)
Inductive BoolOrNumber :=
| OfBool (b : bool)
| OfNumber (n : Z).

Record JobOptions := mkJobOptions {
  attempts : option Z;
  backoff : option Backoff.t;
  delay : option Z;
  priority : option Z;
  timeout : option Z;
  removeOnComplete : option BoolOrNumber;
  removeOnFail : option BoolOrNumber;
}.

Inductive JobStatus := Waiting | Active | Completed | Failed | Delayed.

(** The interface declares [timestamp]; the producer writes
    [createdAt], which is the field the stored record carries. *)
Record Job := mkJob {
  id : string;
  name : string;
  data : string;
  options : JobOptions;
  createdAt : Z;
  status : JobStatus;
  returnValue : option string;
  failedReason : option string;
  stackTrace : option (list string);
  attemptsMade : Z;
}.

Record QueueOptions := mkQueueOptions {
  prefix : option string;
  defaultJobOptions : option JobOptions;
}.

Record WorkerOptions := mkWorkerOptions {
  concurrency : option Z;
  maxJobsPerWorker : option Z;
}.

(** A thrown JavaScript [Error]: its message and, when present, its
    stack. *)
Record JsError := mkJsError { message : string; stack : option string }.

(** The three error classes of [errors/index.ts], by name tag. *)
Inductive Exn :=
| QueueError (msg : string)
| JobError (msg : string)
| WorkerError (msg : string).

Definition noOptions : JobOptions :=
  mkJobOptions None None None None None None None.

#[global] Instance JobStatus_eq_dec : EqDecision JobStatus.
Proof. solve_decision. Defined.

(** JavaScript truthiness of the values the code tests. *)
Definition truthy_num (n : Z) : bool := negb (n =? 0).

Definition truthy_opt_num (o : option Z) : bool :=
  match o with Some n => truthy_num n | None => false end.

Definition truthy_flag (o : option BoolOrNumber) : bool :=
  match o with
  | Some (OfBool b) => b
  | Some (OfNumber n) => truthy_num n
  | None => false
  end.

(** [x || d] for a number [x], and for an optional number. *)
Definition or_num (x d : Z) : Z := if truthy_num x then x else d.

Definition or_opt_num (o : option Z) (d : Z) : Z :=
  match o with Some x => or_num x d | None => d end.

(** [x || d] for an optional string: the empty string is falsy. *)
Definition or_opt_string (o : option string) (d : string) : string :=
  match o with
  | Some s => if decide (s = "") then d else s
  | None => d
  end.

Definition set_status (s : JobStatus) (j : Job) : Job :=
  mkJob (id j) (name j) (data j) (options j) (createdAt j) s
        (returnValue j) (failedReason j) (stackTrace j) (attemptsMade j).

Definition set_returnValue (r : string) (j : Job) : Job :=
  mkJob (id j) (name j) (data j) (options j) (createdAt j) (status j)
        (Some r) (failedReason j) (stackTrace j) (attemptsMade j).

Definition set_failedReason (r : string) (j : Job) : Job :=
  mkJob (id j) (name j) (data j) (options j) (createdAt j) (status j)
        (returnValue j) (Some r) (stackTrace j) (attemptsMade j).

Definition set_stackTrace (t : list string) (j : Job) : Job :=
  mkJob (id j) (name j) (data j) (options j) (createdAt j) (status j)
        (returnValue j) (failedReason j) (Some t) (attemptsMade j).

Definition set_attemptsMade (n : Z) (j : Job) : Job :=
  mkJob (id j) (name j) (data j) (options j) (createdAt j) (status j)
        (returnValue j) (failedReason j) (stackTrace j) n.

End Types.

(** ** The Redis key-space of one queue and the commands sent to it *)

Module Redis.
Import Types.

(** The hash [prefix:name:job:<id>]: the field [data] holds the
    serialized job, [startedAt] is written by [moveToActive]. *)
Record Hash := mkHash { h_data : option Job; h_startedAt : option Z }.

Record Store := mkStore {
  waiting : list string;          (* prefix:name:waiting, head first *)
  active : list string;           (* prefix:name:active, head first *)
  delayed : gmap string Z;        (* prefix:name:delayed, member -> score *)
  jobs : gmap string Hash;        (* prefix:name:job:<id> *)
  paused : option string;         (* prefix:name:paused *)
}.

Definition empty : Store := mkStore [] [] ∅ ∅ None.

Inductive ListKey := KWaiting | KActive.

Inductive Cmd :=
| HSET (jobId : string) (v : Job)      (* HSET job:<id> data v *)
| LPUSH (k : ListKey) (v : string)
| LREM (k : ListKey) (count : Z) (v : string)
| ZADD (score : Z) (member : string)
| ZREM (member : string)
| DEL (jobId : string).                (* DEL job:<id> *)

Definition get_list (k : ListKey) (st : Store) : list string :=
  match k with KWaiting => waiting st | KActive => active st end.

Definition set_list (k : ListKey) (l : list string) (st : Store) : Store :=
  match k with
  | KWaiting => mkStore l (active st) (delayed st) (jobs st) (paused st)
  | KActive => mkStore (waiting st) l (delayed st) (jobs st) (paused st)
  end.

Definition set_delayed (d : gmap string Z) (st : Store) : Store :=
  mkStore (waiting st) (active st) d (jobs st) (paused st).

Definition set_jobs (h : gmap string Hash) (st : Store) : Store :=
  mkStore (waiting st) (active st) (delayed st) h (paused st).

Definition set_paused (p : option string) (st : Store) : Store :=
  mkStore (waiting st) (active st) (delayed st) (jobs st) p.

(** LREM: remove the first [n] occurrences of [v], head to tail. *)
Fixpoint remove_first (n : nat) (v : string) (l : list string) : list string :=
  match n, l with
  | O, _ => l
  | _, [] => []
  | S n', x :: l' =>
      if decide (x = v) then remove_first n' v l' else x :: remove_first n v l'
  end.

(** LREM key count v: count > 0 removes from the head, count < 0 from
    the tail, count = 0 removes every occurrence. *)
Definition lrem (count : Z) (v : string) (l : list string) : list string :=
  if count =? 0 then filter (λ x, x ≠ v) l
  else if 0 <? count then remove_first (Z.to_nat count) v l
  else reverse (remove_first (Z.to_nat (- count)) v (reverse l)).

(** RPOP: the tail element and the remaining list. *)
Definition rpop (l : list string) : option (string * list string) :=
  match reverse l with
  | [] => None
  | x :: r => Some (x, reverse r)
  end.

(** HSET key field value creates the hash when it is absent. *)
Definition hset_data (jobId : string) (v : Job) (h : gmap string Hash)
  : gmap string Hash :=
  <[jobId := mkHash (Some v) (h !! jobId ≫= h_startedAt)]> h.

Definition hset_startedAt (jobId : string) (ts : Z) (h : gmap string Hash)
  : gmap string Hash :=
  <[jobId := mkHash (h !! jobId ≫= h_data) (Some ts)]> h.

(** HGET job:<id> data *)
Definition hget_data (jobId : string) (st : Store) : option Job :=
  jobs st !! jobId ≫= h_data.

Definition exec_cmd (st : Store) (c : Cmd) : Store :=
  match c with
  | HSET jobId v => set_jobs (hset_data jobId v (jobs st)) st
  | LPUSH k v => set_list k (v :: get_list k st) st
  | LREM k count v => set_list k (lrem count v (get_list k st)) st
  | ZADD score member => set_delayed (<[member := score]> (delayed st)) st
  | ZREM member => set_delayed (delete member (delayed st)) st
  | DEL jobId => set_jobs (delete jobId (jobs st)) st
  end.

(** MULTI ... EXEC: the queued commands run in order, as one unit. *)
Definition exec (tx : list Cmd) (st : Store) : Store :=
  foldl exec_cmd st tx.

(** *** Sorted-set order: by score, ties by member bytes *)

Definition zle (a b : string * Z) : Prop :=
  a.2 < b.2 ∨ (a.2 = b.2 ∧ String.leb a.1 b.1 = true).

#[global] Instance zle_dec a b : Decision (zle a b).
Proof. unfold zle. apply _. Defined.

(** ZRANGEBYSCORE key lo hi (both bounds inclusive). *)
Definition zrangebyscore (lo hi : Z) (z : gmap string Z) : list string :=
  (merge_sort zle
     (filter (λ p : string * Z, lo ≤ p.2 ∧ p.2 ≤ hi) (map_to_list z))).*1.

End Redis.

(** ** src/utils/scripts.ts *)

Module Scripts.
Import Types Redis.

(** [moveToActive]: KEYS = waiting, active, job prefix; ARGV = timestamp. *)
Definition moveToActive (timestamp : Z) (st : Store)
  : option string * Store :=
  match rpop (waiting st) with
  | Some (jobId, rest) =>
      let st1 := set_list KWaiting rest st in
      let st2 := set_list KActive (jobId :: active st1) st1 in
      let st3 := set_jobs (hset_startedAt jobId timestamp (jobs st2)) st2 in
      (Some jobId, st3)
  | None => (None, st)
  end.

(** One turn of the [for _, jobId in ipairs(jobs)] loop. *)
Definition promote_one (st : Store) (jobId : string) : Store :=
  let st1 := set_delayed (delete jobId (delayed st)) st in
  set_list KWaiting (jobId :: waiting st1) st1.

(** [processDelayed]: KEYS = delayed, waiting; ARGV = timestamp. *)
Definition processDelayed (timestamp : Z) (st : Store)
  : list string * Store :=
  let jobs := zrangebyscore 0 timestamp (delayed st) in
  if (0 <? length jobs)%nat
  then (jobs, foldl promote_one st jobs)
  else (jobs, st).

End Scripts.

(** ** src/utils/backoff.ts *)

Module BackoffFn.
Import Types.

(** [Math.pow(2, attempts - 1)] is [2 ^ (attempts - 1)] for
    [attempts >= 1], the range the worker calls it on. *)
Definition calculateBackoff (attempts : Z) (opts : JobOptions) : Z :=
  match backoff opts with
  | None => 0
  | Some b =>
      let delay := or_num (Backoff.delay b) 1000 in
      if decide (Backoff.type b = "exponential") then delay * 2 ^ (attempts - 1)
      else if decide (Backoff.type b = "fixed") then delay
      else 0
  end.

End BackoffFn.

(** ** Observable actions and the method monad *)

Module Effects.
Import Types Redis.

(** The events of the two emitters, with their payloads. *)
Inductive Event :=
| EvReady
| EvAdded (j : Job)
| EvRemoved (jobId : string)
| EvPaused
| EvResumed
| EvClosed
| EvProcessing (j : Job)
| EvFailed (j : Job) (e : JsError)
| EvRetrying (j : Job)
| EvCompleted (summary : string).

(** The asynchronous tasks a worker starts without awaiting them. *)
Inductive Task :=
| RunProcessJobs
| RunProcessDelayedJobs
| RunProcessJob (jobId : string).

Inductive Action :=
| Emit (e : Event)
| Multi (tx : list Cmd)                  (* client.multi() ... exec() *)
| SetPaused (v : string)                 (* client.set(paused, v) *)
| DelPaused                              (* client.del(paused) *)
| CallMoveToActive (timestamp : Z)       (* client.moveToActive(...) *)
| CallProcessDelayed (timestamp : Z)     (* client.processDelayed(...) *)
| Sleep (ms : Z)                         (* this.delay(ms) *)
| Quit                                   (* client.quit() *)
| Start (t : Task).

Record World := mkWorld { store : Store; log : list Action }.

(** The outcome of an [async] method: the resolved value or the
    rejection. *)
Inductive Res (A : Type) :=
| Resolve (a : A)
| Reject (e : Exn).
Arguments Resolve {A} a.
Arguments Reject {A} e.

Definition M (A : Type) : Type := World → Res A * World.

Definition ret {A} (a : A) : M A := λ w, (Resolve a, w).

Definition throw {A} (e : Exn) : M A := λ w, (Reject e, w).

Definition bind {A B} (m : M A) (k : A → M B) : M B :=
  λ w, match m w with
       | (Resolve a, w') => k a w'
       | (Reject e, w') => (Reject e, w')
       end.

Definition act (a : Action) : M unit :=
  λ w, (Resolve tt, mkWorld (store w) (log w ++ [a])).

Definition emit (e : Event) : M unit := act (Emit e).

Definition read {A} (f : Store → A) : M A := λ w, (Resolve (f (store w)), w).

Definition write (f : Store → Store) : M unit :=
  λ w, (Resolve tt, mkWorld (f (store w)) (log w)).

(** A script call: the script runs on the server as a unit. *)
Definition script {A} (f : Store → A * Store) : M A :=
  λ w, (Resolve (f (store w)).1, mkWorld (f (store w)).2 (log w)).

(** [await multi.exec()]: the transaction is sent and runs as a unit. *)
Definition multi_exec (tx : list Cmd) : M unit :=
  bind (act (Multi tx)) (λ _, write (exec tx)).

End Effects.

Notation "x <~ m ;; k" := (Effects.bind m (λ x, k))
  (at level 100, m at next level, right associativity,
   format "'[v' x  <~  m  ;;  '/' k ']'").
Notation "m ;;; k" := (Effects.bind m (λ _, k))
  (at level 100, right associativity,
   format "'[v' m  ;;;  '/' k ']'").

(** ** src/queue/Queue.ts *)

Module Queue.
Import Types Redis Effects.

(** The fields of a [Queue] instance; [client] is the [Store] of the
    world the methods run in. *)
Record t := mk {
  name : string;
  prefix : string;
  defaultJobOptions : JobOptions;
  isReady : bool;
}.

Definition set_isReady (b : bool) (q : t) : t :=
  mk (name q) (prefix q) (defaultJobOptions q) b.

(** The constructor, before [initialize] has resolved. *)
Definition new (name : string) (options : QueueOptions) : t :=
  mk name
     (or_opt_string (Types.prefix options) "jet")
     (default noOptions (Types.defaultJobOptions options))
     false.

(** [initialize] once the client is connected. *)
Definition initialize (q : t) : M t :=
  emit EvReady ;;; ret (set_isReady true q).

Definition getQueueKey (q : t) (type : string) : string :=
  prefix q +:+ ":" +:+ name q +:+ ":" +:+ type.

(** One key of [{ ...defaults, ...options }]. *)
Definition spread {A} (defaults options : option A) : option A :=
  match options with Some v => Some v | None => defaults end.

Definition merge (defaults options : JobOptions) : JobOptions :=
  mkJobOptions
    (spread (attempts defaults) (attempts options))
    (spread (backoff defaults) (backoff options))
    (spread (delay defaults) (delay options))
    (spread (priority defaults) (priority options))
    (spread (timeout defaults) (timeout options))
    (spread (removeOnComplete defaults) (removeOnComplete options))
    (spread (removeOnFail defaults) (removeOnFail options)).

(** The job record [add] builds.  [uuid] is the value of [uuidv4()],
    [now] the value of [Date.now()] read for [createdAt]. *)
Definition new_job (q : t) (uuid : string) (now : Z)
    (name data : string) (options : JobOptions) : Job :=
  mkJob uuid name data
        (merge (defaultJobOptions q) options)
        now
        (if truthy_opt_num (delay options) then Delayed else Waiting)
        None None None
        0.

(** The commands [add] queues on its [multi].  [now'] is the second
    reading of [Date.now()], taken for [processAt]. *)
Definition add_tx (job : Job) (now' : Z) (options : JobOptions) : list Cmd :=
  HSET (id job) job ::
  (if decide (status job = Delayed)
   then [ZADD (now' + or_opt_num (delay options) 0) (id job)]
   else [LPUSH KWaiting (id job)]).

Definition add (q : t) (uuid : string) (now now' : Z)
    (name data : string) (options : JobOptions) : M Job :=
  if negb (isReady q) then throw (QueueError "Queue is not ready")
  else
    let job := new_job q uuid now name data options in
    multi_exec (add_tx job now' options) ;;;
    emit (EvAdded job) ;;;
    ret job.

(** [getJob]: declared [Promise<Job | null>]; an absent [data] field
    rejects, a present one resolves to the parsed job. *)
Definition getJob (jobId : string) : M (option Job) :=
  jobData <~ read (hget_data jobId) ;;
  match jobData with
  | None => throw (JobError ("Job with id " +:+ jobId +:+ " not found"))
  | Some job => ret (Some job)
  end.

(** The commands [removeJob] queues on its [multi]. *)
Definition removeJob_tx (jobId : string) : list Cmd :=
  [LREM KWaiting 0 jobId; LREM KActive 0 jobId; ZREM jobId; DEL jobId].

Definition removeJob (jobId : string) : M unit :=
  _exists <~ getJob jobId ;;
  match _exists with
  | None => ret tt
  | Some _ =>
      multi_exec (removeJob_tx jobId) ;;;
      emit (EvRemoved jobId)
  end.

Definition pause : M unit :=
  act (SetPaused "1") ;;;
  write (set_paused (Some "1")) ;;;
  emit EvPaused.

Definition resume : M unit :=
  act DelPaused ;;;
  write (set_paused None) ;;;
  emit EvResumed.

(** [Boolean(await client.get(paused))]: the empty string is falsy. *)
Definition isPaused : M bool :=
  v <~ read paused ;;
  ret (match v with
       | Some s => if decide (s = "") then false else true
       | None => false
       end).

Definition close (q : t) : M t :=
  if isReady q then emit EvClosed ;;; ret (set_isReady false q)
  else ret q.

Definition count : M Z :=
  read (λ st, Z.of_nat (length (waiting st))
              + Z.of_nat (length (active st))
              + Z.of_nat (size (delayed st))).

End Queue.

(** ** src/worker/Worker.ts *)

Module Worker.
Import Types Redis Effects.

Section WithHandler.

(** [ProcessCallbackFunction] is imported from [types/index.js] but
    not declared there; the worker only stores and tests it. *)
Variable ProcessCallbackFunction : Type.

(** The fields of a [Worker] instance.  [maxJobsPerWorker = None]
    stands for [Infinity]. *)
Record t := mk {
  name : string;
  prefix : string;
  isRunning : bool;
  processFn : option ProcessCallbackFunction;
  concurrency : Z;
  maxJobsPerWorker : option Z;
}.

Definition set_isRunning (b : bool) (w : t) : t :=
  mk (name w) (prefix w) b (processFn w) (concurrency w) (maxJobsPerWorker w).

Definition set_processFn (f : ProcessCallbackFunction) (w : t) : t :=
  mk (name w) (prefix w) (isRunning w) (Some f) (concurrency w)
     (maxJobsPerWorker w).

Definition new (name : string) (options : QueueOptions)
    (workerOptions : WorkerOptions) : t :=
  mk name
     (or_opt_string (Types.prefix options) "jet")
     false
     None
     (or_opt_num (Types.concurrency workerOptions) 1)
     (match Types.maxJobsPerWorker workerOptions with
      | Some n => if truthy_num n then Some n else None
      | None => None
      end).

Definition process (w : t) (processFn' : ProcessCallbackFunction) : M t :=
  match processFn w with
  | Some _ => throw (WorkerError "Cannot set multiple process functions")
  | None =>
      let w' := set_isRunning true (set_processFn processFn' w) in
      act (Start RunProcessJobs) ;;;
      act (Start RunProcessDelayedJobs) ;;;
      ret w'
  end.

(** [jobId || null]: the empty string is falsy. *)
Definition getNextJob (w : t) (now : Z) : M (option string) :=
  match processFn w with
  | None => ret None
  | Some _ =>
      act (CallMoveToActive now) ;;;
      jobId <~ script (Scripts.moveToActive now) ;;
      ret (match jobId with
           | Some s => if decide (s = "") then None else Some s
           | None => None
           end)
  end.

(** [processedJobsCount < this.maxJobsPerWorker] *)
Definition below_max (w : t) (processedJobsCount : Z) : bool :=
  match maxJobsPerWorker w with
  | Some m => processedJobsCount <? m
  | None => true
  end.

(** What one turn of the [while] loop of [processJobs] comes to. *)
Inductive Turn :=
| LoopExit                       (* the loop condition is false *)
| AwaitRace                      (* blocked on Promise.race(activeJobs) *)
| Next (processedJobsCount : Z). (* back to the loop condition *)

(** One turn of the dispatcher loop of [processJobs], with
    [activeJobs.size] in-flight executions.  Redis commands do not fail
    in this model, so the [catch] branch of the loop body is not taken. *)
Definition processJobs_turn (w : t) (activeJobs processedJobsCount now : Z)
  : M Turn :=
  if negb (isRunning w && below_max w processedJobsCount) then ret LoopExit
  else if concurrency w <=? activeJobs then ret AwaitRace
  else
    jobId <~ getNextJob w now ;;
    match jobId with
    | None => act (Sleep 100) ;;; ret (Next processedJobsCount)
    | Some jobId =>
        act (Start (RunProcessJob jobId)) ;;;
        ret (Next (processedJobsCount + 1))
    end.

(** One turn of the promoter loop of [processDelayedJobs]. *)
Definition processDelayedJobs_turn (w : t) (processedJobsCount now : Z)
  : M Turn :=
  if negb (isRunning w && below_max w processedJobsCount) then ret LoopExit
  else
    act (CallProcessDelayed now) ;;;
    processedJobs <~ script (Scripts.processDelayed now) ;;
    act (Sleep 1000) ;;;
    ret (Next (processedJobsCount + Z.of_nat (length processedJobs))).

Definition completeJob (job : Job) (result : string) : M unit :=
  let job := set_returnValue result (set_status Completed job) in
  multi_exec
    (LREM KActive 0 (id job) ::
     (if truthy_flag (removeOnComplete (options job))
      then [DEL (id job)]
      else [HSET (id job) job])).

(** The job record [failJob] works on after its four updates. *)
Definition failed_attempt (job : Job) (error : JsError) : Job :=
  let job := set_attemptsMade (or_num (attemptsMade job) 0 + 1) job in
  let job := set_failedReason (message error) job in
  set_stackTrace
    (default [] (stackTrace job)
       ++ [or_opt_string (stack error) (message error)])
    job.

(** [job.attemptsMade < (job.options.attempts || 1)] *)
Definition shouldRetry (job : Job) : bool :=
  attemptsMade job <? or_opt_num (attempts (options job)) 1.

Definition retry_tx (now : Z) (jobId : string) (job : Job) : list Cmd :=
  [ZADD (now + BackoffFn.calculateBackoff (attemptsMade job) (options job))
        (id job);
   HSET jobId job;
   LREM KActive 0 (id job)].

Definition terminal_tx (jobId : string) (job : Job) : list Cmd :=
  LREM KActive 0 (id job) ::
  (if truthy_flag (removeOnFail (options job))
   then [DEL jobId]
   else [HSET jobId job]).

Definition failJob (now : Z) (jobId : string) (error : JsError) : M unit :=
  jobData <~ read (hget_data jobId) ;;
  match jobData with
  | None => ret tt
  | Some job =>
      let job := failed_attempt job error in
      if shouldRetry job then
        let job := set_status Delayed job in
        multi_exec (retry_tx now jobId job) ;;;
        emit (EvFailed job error) ;;;
        emit (EvRetrying job)
      else
        let job := set_status Failed job in
        multi_exec (terminal_tx jobId job) ;;;
        emit (EvFailed job error)
  end.

Definition pause (w : t) : M t :=
  emit EvPaused ;;; ret (set_isRunning false w).

Definition resume (w : t) : M t :=
  if isRunning w then ret w
  else
    emit EvResumed ;;;
    act (Start RunProcessJobs) ;;;
    act (Start RunProcessDelayedJobs) ;;;
    ret (set_isRunning true w).

Definition close (w : t) : M t :=
  emit EvClosed ;;;
  act (Sleep 100) ;;;
  act Quit ;;;
  ret (set_isRunning false w).

End WithHandler.

Arguments mk {_}.
Arguments name {_}.
Arguments prefix {_}.
Arguments isRunning {_}.
Arguments processFn {_}.
Arguments concurrency {_}.
Arguments maxJobsPerWorker {_}.
Arguments set_isRunning {_}.
Arguments set_processFn {_}.
Arguments process {_}.
Arguments getNextJob {_}.
Arguments below_max {_}.
Arguments processJobs_turn {_}.
Arguments processDelayedJobs_turn {_}.
Arguments pause {_}.
Arguments resume {_}.
Arguments close {_}.

End Worker.

(** ** src/worker/Worker.ts: the execution of one job *)

Module WorkerRun.
Import Types Redis Effects.

(** How [withTimeout(processFn(job), timeout)] settles: with the
    handler's result, or with the error it raised (for a timer win,
    the error [Job timeout]). *)
Inductive Settled :=
| Fulfilled (result : string)
| Rejected (error : JsError).

Section WithHandler.

Variable ProcessCallbackFunction : Type.

(** The outcome of awaiting the handler on a job.  What the handler
    does besides, and the wall clock, are outside the model. *)
Variable invoke : ProcessCallbackFunction → Job → Settled.

(** [processJob] up to the call of the handler: the job the handler is
    given, or nothing when there is no handler or no record. *)
Definition processJob_begin (w : Worker.t ProcessCallbackFunction)
    (jobId : string) : M (option Job) :=
  match Worker.processFn w with
  | None => ret None
  | Some _ =>
      jobData <~ read (hget_data jobId) ;;
      match jobData with
      | None => ret None
      | Some job =>
          let job := set_status Active job in
          emit (EvProcessing job) ;;;
          ret (Some job)
      end
  end.

(** [processJob] from the moment the handler has settled; [now] is the
    clock reading [failJob] takes. *)
Definition processJob_settle (now : Z) (jobId : string) (job : Job)
    (outcome : Settled) : M unit :=
  match outcome with
  | Fulfilled result => Worker.completeJob job result
  | Rejected error => Worker.failJob now jobId error
  end.

(** [processJob] with nothing else running in between. *)
Definition processJob (w : Worker.t ProcessCallbackFunction) (now : Z)
    (jobId : string) : M unit :=
  match Worker.processFn w with
  | None => ret tt
  | Some processFn =>
      started <~ processJob_begin w jobId ;;
      match started with
      | None => ret tt
      | Some job => processJob_settle now jobId job (invoke processFn job)
      end
  end.

End WithHandler.

Arguments processJob_begin {_}.
Arguments processJob_settle : clear implicits.
Arguments processJob {_}.

End WorkerRun.

(** ** src/utils/redis.ts *)

Module RedisConnection.
Import Types.

(** [options.connection] *)
Record ConnectionOptions := mkConnectionOptions {
  host : option string;
  port : option Z;
  password : option string;
}.

(** An [IORedis] object: [handle] tells two objects apart, the rest is
    what the constructor and [defineCommand] were given.  The class
    comes in two versions that differ only in the two [defineCommand]
    calls; this is the one with them, which [Worker.ts] relies on. *)
Record Client := mkClient {
  handle : nat;
  client_host : string;
  client_port : Z;
  client_password : option string;
  commands : list string;
}.

(** [instances], in insertion order, and the number of [IORedis]
    objects constructed so far. *)
Record Registry := mkRegistry {
  instances : list (string * Client);
  constructed : nat;
}.

Definition no_instances : Registry := mkRegistry [] 0.

Inductive Notice :=
| Connected (c : Client)           (* new IORedis(...) became ready *)
| QuitSent (c : Client).           (* client.quit() *)

(** The pieces of [options.connection || {}]. *)
Definition host_of (o : option ConnectionOptions) : option string := o ≫= host.
Definition port_of (o : option ConnectionOptions) : option Z := o ≫= port.
Definition password_of (o : option ConnectionOptions) : option string :=
  o ≫= password.

Definition getConnectionKey (connection : option ConnectionOptions) : string :=
  or_opt_string (host_of connection) "localhost"
  +:+ ":" +:+ pretty (or_opt_num (port_of connection) 6379)
  +:+ ":" +:+ or_opt_string (password_of connection) "".

(** [Map.prototype.get] *)
Fixpoint map_get (k : string) (m : list (string * Client)) : option Client :=
  match m with
  | [] => None
  | (k', c) :: m' => if decide (k' = k) then Some c else map_get k m'
  end.

(** [Map.prototype.set]: an existing key keeps its place. *)
Fixpoint map_set (k : string) (c : Client) (m : list (string * Client))
  : list (string * Client) :=
  match m with
  | [] => [(k, c)]
  | (k', c') :: m' =>
      if decide (k' = k) then (k, c) :: m' else (k', c') :: map_set k c m'
  end.

(** What a new client signals first: [ready], or [error] with the
    rejection value ([None] when that is not an [Error]). *)
Inductive Signal :=
| Ready
| Errored (message : option string).

Definition createClient (connection : option ConnectionOptions)
    (signal : Signal) (r : Registry)
  : (Exn + Client) * Registry * list Notice :=
  let connectionKey := getConnectionKey connection in
  match map_get connectionKey (instances r) with
  | Some client => (inr client, r, [])
  | None =>
      let client :=
        mkClient (constructed r)
                 (or_opt_string (host_of connection) "localhost")
                 (or_opt_num (port_of connection) 6379)
                 (password_of connection)
                 ["moveToActive"; "processDelayed"] in
      match signal with
      | Errored error =>
          let errorMessage := default "Unknown error" error in
          (inl (QueueError ("Failed to connect to Redis: " +:+ errorMessage)),
           mkRegistry (instances r) (S (constructed r)),
           [])
      | Ready =>
          (inr client,
           mkRegistry (map_set connectionKey client (instances r))
                      (S (constructed r)),
           [Connected client])
      end
  end.

Definition closeAll (r : Registry) : Registry * list Notice :=
  (mkRegistry [] (constructed r), QuitSent <$> (instances r).*2).

End RedisConnection.

(** * Properties *)

(** ** The backoff function *)

Module BackoffSpec.
Import Types BackoffFn.

(** The backoff law in the words of the specification (section 4.6):
    0 without a backoff, [delay] for [fixed],
    [delay * 2^(attempts-1)] for [exponential], 0 otherwise. *)
Definition backoff_as_specified (attempts : Z) (opts : JobOptions) : Z :=
  match backoff opts with
  | None => 0
  | Some b =>
      if decide (Backoff.type b = "fixed") then Backoff.delay b
      else if decide (Backoff.type b = "exponential")
           then Backoff.delay b * 2 ^ (attempts - 1)
           else 0
  end.

Definition with_backoff (type : string) (delay : Z) : JobOptions :=
  mkJobOptions None (Some (Backoff.mk type delay)) None None None None None.

Lemma or_num_nonzero x d : x ≠ 0 → or_num x d = x.
Proof.
  intros Hx. unfold or_num, truthy_num.
  destruct (Z.eqb_spec x 0); [contradiction | reflexivity].
Qed.

Lemma or_num_zero d : or_num 0 d = d.
Proof. reflexivity. Qed.

Lemma or_num_same x : or_num x 0 = x.
Proof.
  unfold or_num, truthy_num. destruct (Z.eqb_spec x 0); simpl; congruence.
Qed.

(** C6, as stated, fails where [backoff.delay = 0]: the code
    substitutes 1000 for a zero delay, the stated law gives 0. *)
Lemma calculateBackoff_zero_delay_counterexample :
  calculateBackoff 1 (with_backoff "fixed" 0) = 1000
  ∧ backoff_as_specified 1 (with_backoff "fixed" 0) = 0
  ∧ calculateBackoff 3 (with_backoff "exponential" 0) = 4000
  ∧ backoff_as_specified 3 (with_backoff "exponential" 0) = 0.
Proof. repeat split; reflexivity. Qed.

(** C6 (amended): for every [attempts >= 1] and every [opts],
    [calculateBackoff attempts opts] is 0 when [opts.backoff] is absent;
    otherwise, with [d] the configured [backoff.delay] when that is
    non-zero and 1000 when it is zero, it is [d] for type [fixed],
    [d * 2^(attempts-1)] for type [exponential], and 0 for any other
    type. *)
Theorem calculateBackoff_law (attempts : Z) (opts : JobOptions) :
  1 ≤ attempts →
  calculateBackoff attempts opts =
    match backoff opts with
    | None => 0
    | Some b =>
        let d := if decide (Backoff.delay b = 0) then 1000
                 else Backoff.delay b in
        if decide (Backoff.type b = "fixed") then d
        else if decide (Backoff.type b = "exponential")
             then d * 2 ^ (attempts - 1)
             else 0
    end.
Proof.
  intros _. unfold calculateBackoff.
  destruct (backoff opts) as [b|]; [|reflexivity].
  assert (Hd : or_num (Backoff.delay b) 1000
               = if decide (Backoff.delay b = 0) then 1000
                 else Backoff.delay b).
  { destruct (decide (Backoff.delay b = 0)) as [H0|H0];
      [rewrite H0; reflexivity | by apply or_num_nonzero]. }
  cbv zeta. rewrite Hd.
  destruct (decide (Backoff.type b = "exponential")) as [He|He];
    destruct (decide (Backoff.type b = "fixed")) as [Hf|Hf];
    try reflexivity.
  rewrite He in Hf. discriminate.
Qed.

Lemma calculateBackoff_law_witness :
  1 ≤ 3 ∧ calculateBackoff 3 (with_backoff "exponential" 50) = 200.
Proof.
  assert (H : 1 ≤ 3) by lia.
  exact (conj H (calculateBackoff_law 3 (with_backoff "exponential" 50) H)).
Defined.

(** Where the configured delay is non-zero the code and the stated law
    agree. *)
Lemma calculateBackoff_agrees (attempts : Z) (opts : JobOptions) :
  (∀ b, backoff opts = Some b → Backoff.delay b ≠ 0) →
  calculateBackoff attempts opts = backoff_as_specified attempts opts.
Proof.
  intros Hnz. unfold calculateBackoff, backoff_as_specified.
  destruct (backoff opts) as [b|]; [|reflexivity].
  cbv zeta. rewrite or_num_nonzero by (by apply Hnz).
  destruct (decide (Backoff.type b = "exponential")) as [He|He];
    destruct (decide (Backoff.type b = "fixed")) as [Hf|Hf];
    try reflexivity.
  rewrite He in Hf. discriminate.
Qed.

End BackoffSpec.

(** ** The two server-side scripts *)

Module ScriptsSpec.
Import Types Redis Scripts.

Lemma rpop_snoc (l : list string) (x : string) : rpop (l ++ [x]) = Some (x, l).
Proof. unfold rpop. rewrite reverse_snoc, reverse_involutive. reflexivity. Qed.

Lemma rpop_nil : rpop [] = None.
Proof. reflexivity. Qed.

Lemma hget_data_hset_startedAt (i x : string) (ts : Z) (st : Store) :
  hget_data i (set_jobs (hset_startedAt x ts (jobs st)) st) = hget_data i st.
Proof.
  unfold hget_data, hset_startedAt. simpl.
  destruct (decide (x = i)) as [->|Hne].
  - rewrite lookup_insert_eq. reflexivity.
  - rewrite lookup_insert_ne by done. reflexivity.
Qed.

(** C5: on a non-empty waiting list [moveToActive] removes the tail
    element, pushes it onto the head of active, sets
    [startedAt = nowMs] on that job's hash (leaving every [data] field
    and every other hash as they were) and returns the id; on an empty
    waiting list it returns nil and changes nothing. *)
Theorem moveToActive_spec (nowMs : Z) (st : Store) :
  (waiting st = [] → moveToActive nowMs st = (None, st))
  ∧ (∀ rest jobId, waiting st = rest ++ [jobId] →
       let st' := (moveToActive nowMs st).2 in
       (moveToActive nowMs st).1 = Some jobId
       ∧ waiting st' = rest
       ∧ active st' = jobId :: active st
       ∧ jobs st' !! jobId ≫= h_startedAt = Some nowMs
       ∧ (∀ i, i ≠ jobId → jobs st' !! i = jobs st !! i)
       ∧ (∀ i, hget_data i st' = hget_data i st)
       ∧ delayed st' = delayed st
       ∧ paused st' = paused st).
Proof.
  split.
  - intros Hw. unfold moveToActive. rewrite Hw, rpop_nil. reflexivity.
  - intros rest jobId Hw. unfold moveToActive.
    rewrite Hw, rpop_snoc. cbn -[hset_startedAt].
    repeat split.
    + unfold hset_startedAt. rewrite lookup_insert_eq. reflexivity.
    + intros i Hi. unfold hset_startedAt. by rewrite lookup_insert_ne.
    + intros i. unfold hget_data, hset_startedAt. simpl.
      destruct (decide (jobId = i)) as [->|Hne].
      * rewrite lookup_insert_eq. reflexivity.
      * rewrite lookup_insert_ne by done. reflexivity.
Qed.

Definition two_waiting : Store := mkStore ["b"; "a"] ["z"] ∅ ∅ None.

Lemma moveToActive_spec_witness :
  waiting two_waiting = ["b"] ++ ["a"]
  ∧ (moveToActive 7 two_waiting).1 = Some "a"
  ∧ waiting (moveToActive 7 two_waiting).2 = ["b"]
  ∧ active (moveToActive 7 two_waiting).2 = ["a"; "z"]
  ∧ waiting Redis.empty = []
  ∧ moveToActive 7 Redis.empty = (None, Redis.empty).
Proof.
  pose proof (moveToActive_spec 7 two_waiting) as [_ Hne].
  pose proof (moveToActive_spec 7 Redis.empty) as [He _].
  destruct (Hne ["b"] "a" eq_refl) as (H1 & H2 & H3 & _).
  exact (conj eq_refl (conj H1 (conj H2 (conj H3
           (conj eq_refl (He eq_refl)))))).
Defined.

(** *** The delayed set read in score order *)

Lemma elem_of_zrangebyscore (lo hi : Z) (z : gmap string Z) (i : string) :
  i ∈ zrangebyscore lo hi z ↔ ∃ s, z !! i = Some s ∧ lo ≤ s ∧ s ≤ hi.
Proof.
  unfold zrangebyscore. rewrite list_elem_of_fmap. split.
  - intros ([k s] & -> & Hin).
    rewrite merge_sort_Permutation in Hin.
    apply list_elem_of_filter in Hin as [Hr Hin].
    apply elem_of_map_to_list in Hin. exists s. simpl in *. tauto.
  - intros (s & Hs & Hlo & Hhi). exists (i, s). split; [reflexivity|].
    rewrite merge_sort_Permutation. apply list_elem_of_filter.
    split; [simpl; lia | by apply elem_of_map_to_list].
Qed.

Lemma NoDup_zrangebyscore (lo hi : Z) (z : gmap string Z) :
  NoDup (zrangebyscore lo hi z).
Proof.
  unfold zrangebyscore. rewrite merge_sort_Permutation.
  eapply sublist_NoDup; [apply (NoDup_fst_map_to_list z)|].
  apply fmap_sublist, sublist_filter.
Qed.

#[local] Instance zle_total : Total zle.
Proof.
  intros [a s] [b u]. unfold zle. simpl.
  destruct (Z.lt_trichotomy s u) as [?|[->|?]]; [tauto| |tauto].
  destruct (String.leb_total a b); tauto.
Qed.

(** The pairs behind the ids [zrangebyscore] returns are in ascending
    score order. *)
Lemma zrangebyscore_sorted (lo hi : Z) (z : gmap string Z) :
  Sorted zle
    (merge_sort zle
       (filter (λ p : string * Z, lo ≤ p.2 ∧ p.2 ≤ hi) (map_to_list z))).
Proof. apply (Sorted_merge_sort zle). Qed.

(** *** The promotion loop *)

Lemma promote_loop_waiting (ids : list string) (st : Store) :
  waiting (foldl promote_one st ids) = reverse ids ++ waiting st.
Proof.
  revert st. induction ids as [|i ids IH]; intros st; [reflexivity|].
  simpl. rewrite IH, reverse_cons, <- app_assoc. reflexivity.
Qed.

Lemma promote_loop_delayed (ids : list string) (st : Store) (i : string) :
  delayed (foldl promote_one st ids) !! i
  = if decide (i ∈ ids) then None else delayed st !! i.
Proof.
  revert st. induction ids as [|j ids IH]; intros st.
  - simpl. destruct (decide (i ∈ [])) as [Hin|_]; [|reflexivity].
    by apply elem_of_nil in Hin.
  - simpl. rewrite IH. simpl.
    destruct (decide (i ∈ ids)) as [Hin|Hnin];
      destruct (decide (i ∈ j :: ids)) as [Hin'|Hnin']; try reflexivity.
    + exfalso. apply Hnin'. apply elem_of_cons. by right.
    + apply elem_of_cons in Hin' as [->|Hin']; [|contradiction].
      apply lookup_delete_eq.
    + apply lookup_delete_ne. intros ->. apply Hnin'.
      apply elem_of_cons. by left.
Qed.

Lemma promote_loop_frame (ids : list string) (st : Store) :
  active (foldl promote_one st ids) = active st
  ∧ jobs (foldl promote_one st ids) = jobs st
  ∧ paused (foldl promote_one st ids) = paused st.
Proof.
  revert st. induction ids as [|j ids IH]; intros st; [done|].
  simpl. destruct (IH (promote_one st j)) as (-> & -> & ->). done.
Qed.

Lemma processDelayed_unfold (nowMs : Z) (st : Store) :
  processDelayed nowMs st
  = (zrangebyscore 0 nowMs (delayed st),
     foldl promote_one st (zrangebyscore 0 nowMs (delayed st))).
Proof.
  unfold processDelayed.
  destruct (zrangebyscore 0 nowMs (delayed st)); reflexivity.
Qed.


Definition overdue_negative : Store :=
  mkStore ["w"] [] {["a" := -1]} ∅ None.

(** C4, as stated, fails on a score below zero: the script reads the
    range from 0, so an id whose score lies in (-inf, nowMs] but is
    negative is neither returned nor moved. *)
Lemma processDelayed_negative_score_counterexample :
  delayed overdue_negative !! "a" = Some (-1)
  ∧ -1 ≤ 5
  ∧ (processDelayed 5 overdue_negative).1 = []
  ∧ delayed (processDelayed 5 overdue_negative).2 !! "a" = Some (-1)
  ∧ waiting (processDelayed 5 overdue_negative).2 = ["w"].
Proof. repeat split; try reflexivity. lia. Qed.

(** C4 (amended): [processDelayed] (the script behind
    [promoteDelayed(delayedKey, waitingKey, nowMs)]) removes from the
    delayed sorted set exactly those ids whose score lies in
    [0, nowMs], pushes each of them onto the head of the waiting list
    (in score order, so the last promoted id ends at the head), and
    returns the list of promoted ids; every id with score > nowMs or
    score < 0 remains in delayed with its score, each promoted id
    occurs once in the returned list, and the active list, the job
    hashes and the pause flag are untouched. *)
Theorem processDelayed_spec (nowMs : Z) (st : Store) :
  let ids := (processDelayed nowMs st).1 in
  let st' := (processDelayed nowMs st).2 in
  (∀ i, i ∈ ids ↔ ∃ s, delayed st !! i = Some s ∧ 0 ≤ s ∧ s ≤ nowMs)
  ∧ NoDup ids
  ∧ waiting st' = reverse ids ++ waiting st
  ∧ (∀ i, delayed st' !! i
          = if decide (i ∈ ids) then None else delayed st !! i)
  ∧ (∀ i s, delayed st !! i = Some s → s < 0 ∨ nowMs < s →
            delayed st' !! i = Some s)
  ∧ active st' = active st
  ∧ jobs st' = jobs st
  ∧ paused st' = paused st.
Proof.
  rewrite processDelayed_unfold. cbn [fst snd].
  set (ids := zrangebyscore 0 nowMs (delayed st)).
  pose proof (promote_loop_frame ids st) as (Ha & Hj & Hp).
  split; [intros i; apply elem_of_zrangebyscore|].
  split; [apply NoDup_zrangebyscore|].
  split; [apply promote_loop_waiting|].
  split; [intros i; apply promote_loop_delayed|].
  split; [|done].
  intros i s Hs Hout. rewrite promote_loop_delayed.
  destruct (decide (i ∈ ids)) as [Hin|_]; [|exact Hs].
  apply elem_of_zrangebyscore in Hin as (s' & Hs' & ? & ?).
  rewrite Hs in Hs'. injection Hs' as <-. lia.
Qed.

Definition two_delayed : Store :=
  mkStore ["w"] [] {["due" := 3; "later" := 9]} ∅ None.

Lemma processDelayed_spec_witness :
  (processDelayed 5 two_delayed).1 = ["due"]
  ∧ waiting (processDelayed 5 two_delayed).2 = ["due"; "w"]
  ∧ delayed (processDelayed 5 two_delayed).2 !! "later" = Some 9.
Proof.
  pose proof (processDelayed_spec 5 two_delayed) as (_ & _ & Hw & _ & Hd & _).
  exact (conj eq_refl (conj Hw (Hd "later" 9 eq_refl (or_intror eq_refl)))).
Defined.

End ScriptsSpec.

(** ** The producer *)

Module QueueSpec.
Import Types Redis Effects Queue.

Definition fresh_world : World := mkWorld Redis.empty [].

Definition ready_queue (defaults : JobOptions) : Queue.t :=
  Queue.mk "q" "jet" defaults true.

Definition with_delay (d : Z) : JobOptions :=
  mkJobOptions None None (Some d) None None None None.

Definition sample_job : Job :=
  mkJob "a" "t" "{}" noOptions 0 Waiting None None None 0.

(** A key-space holding job "a": queued in waiting, with its hash. *)
Definition one_job : World :=
  mkWorld
    (mkStore ["a"] [] ∅ {["a" := mkHash (Some sample_job) None]} None)
    [].

Lemma lrem_all_not_elem (v : string) (l : list string) : v ∉ lrem 0 v l.
Proof.
  unfold lrem. simpl. intros Hin.
  apply list_elem_of_filter in Hin as [Hne _]. by apply Hne.
Qed.

Lemma exec_removeJob_tx (jobId : string) (st : Store) :
  exec (removeJob_tx jobId) st
  = mkStore (lrem 0 jobId (waiting st)) (lrem 0 jobId (active st))
            (delete jobId (delayed st)) (delete jobId (jobs st))
            (paused st).
Proof. reflexivity. Qed.

Lemma getJob_absent (jobId : string) (w : World) :
  hget_data jobId (store w) = None →
  getJob jobId w
  = (Reject (JobError ("Job with id " +:+ jobId +:+ " not found")), w).
Proof. intros Habs. unfold getJob, bind, read. rewrite Habs. reflexivity. Qed.

Lemma getJob_present (jobId : string) (w : World) (job : Job) :
  hget_data jobId (store w) = Some job →
  getJob jobId w = (Resolve (Some job), w).
Proof. intros Hj. unfold getJob, bind, read. rewrite Hj. reflexivity. Qed.

(** C2 (the code departs from it): for an id whose hash record is
    absent the specification, like the unit test, wants [getJob] to
    resolve to null; the code rejects with a job-category error.  Here
    on the empty key-space and the id "missing". *)
Theorem getJob_absent_rejects :
  hget_data "missing" (store fresh_world) = None
  ∧ getJob "missing" fresh_world
    = (Reject (JobError "Job with id missing not found"), fresh_world).
Proof. split; reflexivity. Qed.

(** C1, as stated, fails: the second of two successive [removeJob]
    calls does not succeed (it rejects with a job-category error),
    sends no transaction and emits no [removed]. *)
Lemma removeJob_twice_counterexample :
  (removeJob "a" one_job).1 = Resolve tt
  ∧ removeJob "a" (removeJob "a" one_job).2
    = (Reject (JobError "Job with id a not found"),
       mkWorld Redis.empty
               [Multi (removeJob_tx "a"); Emit (EvRemoved "a")]).
Proof. split; reflexivity. Qed.

(** C1 (amended): for every id whose hash record exists, [removeJob]
    succeeds, sends LREM waiting / LREM active / ZREM delayed / DEL hash
    as one transaction and emits [removed], leaving the id absent from
    waiting, active and delayed and its hash deleted; a second
    [removeJob] on the same id in succession sends no transaction,
    emits no event and leaves that terminal key-space as it is. *)
Theorem removeJob_spec (jobId : string) (w : World) (job : Job) :
  hget_data jobId (store w) = Some job →
  let w1 := (removeJob jobId w).2 in
  (removeJob jobId w).1 = Resolve tt
  ∧ log w1 = log w ++ [Multi (removeJob_tx jobId); Emit (EvRemoved jobId)]
  ∧ store w1 = exec (removeJob_tx jobId) (store w)
  ∧ (jobId ∉ waiting (store w1))
  ∧ (jobId ∉ active (store w1))
  ∧ delayed (store w1) !! jobId = None
  ∧ jobs (store w1) !! jobId = None
  ∧ (removeJob jobId w1).2 = w1.
Proof.
  intros Hj.
  assert (Hrun : removeJob jobId w
                 = (Resolve tt,
                    mkWorld (exec (removeJob_tx jobId) (store w))
                            (log w ++ [Multi (removeJob_tx jobId);
                                       Emit (EvRemoved jobId)]))).
  { unfold removeJob, bind. rewrite (getJob_present _ _ _ Hj).
    unfold multi_exec, emit, bind, act, write. simpl.
    rewrite <- app_assoc. reflexivity. }
  rewrite Hrun. cbn [fst snd store log].
  rewrite exec_removeJob_tx. cbn [waiting active delayed jobs].
  split; [reflexivity|]. split; [reflexivity|]. split; [reflexivity|].
  split; [apply lrem_all_not_elem|]. split; [apply lrem_all_not_elem|].
  split; [apply lookup_delete_eq|]. split; [apply lookup_delete_eq|].
  unfold removeJob, bind. rewrite getJob_absent; [reflexivity|].
  unfold hget_data. simpl. rewrite lookup_delete_eq. reflexivity.
Qed.

Lemma removeJob_spec_witness :
  hget_data "a" (store one_job) = Some sample_job
  ∧ (removeJob "a" one_job).1 = Resolve tt
  ∧ store (removeJob "a" one_job).2 = Redis.empty
  ∧ (removeJob "a" (removeJob "a" one_job).2).2 = (removeJob "a" one_job).2.
Proof.
  pose proof (removeJob_spec "a" one_job sample_job eq_refl)
    as (H1 & _ & H3 & _ & _ & _ & _ & H8).
  exact (conj eq_refl (conj H1 (conj H3 H8))).
Defined.


(** *** add *)

Lemma truthy_opt_num_iff (o : option Z) :
  truthy_opt_num o = true ↔ ∃ d, o = Some d ∧ d ≠ 0.
Proof.
  destruct o as [d|]; simpl.
  - unfold truthy_num. destruct (Z.eqb_spec d 0) as [->|Hd]; simpl.
    + split; [discriminate|]. intros (d & [= <-] & Hd). contradiction.
    + split; [|reflexivity]. intros _. by exists d.
  - split; [discriminate|]. intros (d & [=] & _).
Qed.

(** C3, as stated, fails twice.  A delay that only the queue defaults
    carry is in the merged options, and > 0, yet the job is made
    [waiting] and pushed onto the waiting list; and a negative delay in
    the call options, which is not > 0, makes the job [delayed]. *)
Lemma add_merged_delay_counterexample :
  let r := add (ready_queue (with_delay 1000)) "id1" 10 10 "t" "{}"
               noOptions fresh_world in
  let r' := add (ready_queue noOptions) "id2" 10 10 "t" "{}"
                (with_delay (-5)) fresh_world in
  (∃ job, r.1 = Resolve job
          ∧ delay (options job) = Some 1000
          ∧ status job = Waiting)
  ∧ waiting (store r.2) = ["id1"]
  ∧ delayed (store r.2) !! "id1" = None
  ∧ (∃ job, r'.1 = Resolve job
            ∧ delay (options job) = Some (-5)
            ∧ status job = Delayed)
  ∧ waiting (store r'.2) = []
  ∧ delayed (store r'.2) !! "id2" = Some 5.
Proof.
  cbv zeta. split; [eexists; repeat split; reflexivity|].
  split; [reflexivity|]. split; [reflexivity|].
  split; [eexists; repeat split; reflexivity|].
  split; reflexivity.
Qed.

(** C3 (amended): for every call [add(name, data, options)] on a ready
    queue, with [uuid] the generated id and [now], [now'] the two clock
    readings: the returned job carries that id, [createdAt = now],
    [attemptsMade = 0] and options equal to the call options merged
    over [defaultJobOptions]; its status is [delayed] iff the call
    options themselves carry a non-zero delay, and [waiting] otherwise;
    one transaction writes the serialized job to the hash and LPUSHes
    the id onto waiting (status [waiting]) or ZADDs it into delayed
    with score [now' + options.delay] (status [delayed]); then [added]
    is emitted. *)
Theorem add_spec (q : Queue.t) (uuid : string) (now now' : Z)
    (name data : string) (options : JobOptions) (w : World) :
  isReady q = true →
  let job := new_job q uuid now name data options in
  let r := add q uuid now now' name data options w in
  r.1 = Resolve job
  ∧ id job = uuid
  ∧ Types.name job = name
  ∧ Types.data job = data
  ∧ createdAt job = now
  ∧ attemptsMade job = 0
  ∧ Types.options job = merge (defaultJobOptions q) options
  ∧ (status job = Delayed ↔ ∃ d, delay options = Some d ∧ d ≠ 0)
  ∧ (status job = Waiting ↔ ¬ ∃ d, delay options = Some d ∧ d ≠ 0)
  ∧ log r.2 = log w ++ [Multi (add_tx job now' options); Emit (EvAdded job)]
  ∧ store r.2 = exec (add_tx job now' options) (store w)
  ∧ hget_data uuid (store r.2) = Some job
  ∧ (status job = Waiting →
       add_tx job now' options = [HSET uuid job; LPUSH KWaiting uuid]
       ∧ waiting (store r.2) = uuid :: waiting (store w)
       ∧ delayed (store r.2) = delayed (store w))
  ∧ (∀ d, delay options = Some d → d ≠ 0 →
       add_tx job now' options = [HSET uuid job; ZADD (now' + d) uuid]
       ∧ delayed (store r.2) = <[uuid := now' + d]> (delayed (store w))
       ∧ waiting (store r.2) = waiting (store w))
  ∧ active (store r.2) = active (store w).
Proof.
  intros Hready job r.
  assert (Hr : r = (Resolve job,
                    mkWorld (exec (add_tx job now' options) (store w))
                            (log w ++ [Multi (add_tx job now' options);
                                       Emit (EvAdded job)]))).
  { subst r. unfold add. rewrite Hready. simpl.
    unfold multi_exec, emit, bind, act, write, ret. simpl.
    rewrite <- app_assoc. reflexivity. }
  assert (Hst : status job = Delayed ↔ ∃ d, delay options = Some d ∧ d ≠ 0).
  { rewrite <- truthy_opt_num_iff. subst job. unfold new_job. simpl.
    destruct (truthy_opt_num (delay options)); split; congruence. }
  assert (Hcases : status job = Delayed ∨ status job = Waiting).
  { subst job. unfold new_job. simpl.
    destruct (truthy_opt_num (delay options)); auto. }
  rewrite Hr. cbn [fst snd store log].
  repeat (split; [reflexivity|]).
  split; [exact Hst|].
  split.
  { rewrite <- Hst. destruct Hcases as [Hc|Hc]; rewrite Hc; split;
      try congruence; intros H; by destruct H. }
  repeat (split; [reflexivity|]).
  split.
  { unfold add_tx, hget_data.
    destruct (decide (status job = Delayed)); simpl;
      unfold hset_data; rewrite lookup_insert_eq; reflexivity. }
  split.
  { intros Hw. unfold add_tx.
    destruct (decide (status job = Delayed)) as [Hd|_]; [congruence|].
    done. }
  split.
  { intros d Hd Hnz. unfold add_tx.
    destruct (decide (status job = Delayed)) as [_|Hnd].
    - rewrite Hd. simpl. rewrite BackoffSpec.or_num_nonzero by done. done.
    - exfalso. apply Hnd, Hst. by exists d. }
  unfold add_tx. destruct (decide (status job = Delayed)); reflexivity.
Qed.

Lemma add_spec_witness :
  isReady (ready_queue noOptions) = true
  ∧ (add (ready_queue noOptions) "id1" 10 12 "t" "{}" (with_delay 50)
         fresh_world).1
    = Resolve (new_job (ready_queue noOptions) "id1" 10 "t" "{}"
                       (with_delay 50))
  ∧ delayed (store (add (ready_queue noOptions) "id1" 10 12 "t" "{}"
                        (with_delay 50) fresh_world).2)
    = <[ "id1" := 12 + 50 ]> ∅.
Proof.
  pose proof (add_spec (ready_queue noOptions) "id1" 10 12 "t" "{}"
                (with_delay 50) fresh_world eq_refl) as H.
  cbv zeta in H.
  destruct H as (H1 & _ & _ & _ & _ & _ & _ & _ & _ & _ & _ & _ & _ & Hd & _).
  destruct (Hd 50 eq_refl ltac:(lia)) as (_ & H2 & _).
  exact (conj eq_refl (conj H1 H2)).
Defined.

(** A queue that is not ready refuses [add] and changes nothing. *)
Lemma add_not_ready (q : Queue.t) (uuid : string) (now now' : Z)
    (name data : string) (options : JobOptions) (w : World) :
  isReady q = false →
  add q uuid now now' name data options w
  = (Reject (QueueError "Queue is not ready"), w).
Proof. intros Hn. unfold add. rewrite Hn. reflexivity. Qed.

(** *** close *)

(** C10: [close] is idempotent at the event surface: a call on a ready
    queue clears readiness and emits [closed]; a call on a queue that
    is not ready (so every call after the first) leaves the producer
    and the world unchanged and emits no event. *)
Theorem close_idempotent (q : Queue.t) (w w' : World) :
  close q w
  = (Resolve (set_isReady false q),
     mkWorld (store w)
             (log w ++ if isReady q then [Emit EvClosed] else []))
  ∧ isReady (set_isReady false q) = false
  ∧ close (set_isReady false q) w' = (Resolve (set_isReady false q), w').
Proof.
  split; [|split; reflexivity].
  unfold close. destruct q as [n p d r], w as [st l]. destruct r; simpl.
  - reflexivity.
  - unfold ret. rewrite app_nil_r. reflexivity.
Qed.

End QueueSpec.

(** ** The worker *)

Module WorkerSpec.
Import Types Redis Effects Worker.

Definition with_paused (flag : option string) (wd : World) : World :=
  mkWorld (set_paused flag (store wd)) (log wd).

(** A worker whose loops run, with a handler, one slot and no job cap. *)
Definition running_worker : Worker.t unit :=
  Worker.mk "q" "jet" true (Some tt) 1 None.

(** A paused queue holding job "a" in waiting. *)
Definition paused_with_work : World :=
  mkWorld
    (mkStore ["a"] [] ∅
             {["a" := mkHash (Some QueueSpec.sample_job) None]}
             (Some "1"))
    [].

(** *** process *)

(** C9: [process] on a worker without a handler installs the handler,
    sets the worker running and starts the dispatcher and the promoter
    loops; [process] on a worker that already has a handler rejects
    with a worker-category error, whatever the second handler, and
    changes nothing. *)
Theorem process_single_handler {H : Type} (w : Worker.t H) (f g : H)
    (wd wd' : World) :
  processFn w = None →
  let w1 := set_isRunning true (set_processFn f w) in
  process w f wd
  = (Resolve w1,
     mkWorld (store wd)
             (log wd ++ [Start RunProcessJobs; Start RunProcessDelayedJobs]))
  ∧ processFn w1 = Some f
  ∧ isRunning w1 = true
  ∧ process w1 g wd'
    = (Reject (WorkerError "Cannot set multiple process functions"), wd')
  ∧ (∀ w2 : Worker.t H, processFn w2 ≠ None →
       process w2 g wd'
       = (Reject (WorkerError "Cannot set multiple process functions"), wd')).
Proof.
  intros Hnone. cbv zeta. split.
  { unfold process. rewrite Hnone. unfold bind, act, ret. simpl.
    rewrite <- app_assoc. reflexivity. }
  split; [reflexivity|]. split; [reflexivity|]. split; [reflexivity|].
  intros w2 Hsome. unfold process.
  destruct (processFn w2); [reflexivity | contradiction].
Qed.

Lemma process_single_handler_witness :
  processFn (Worker.new unit "q" (mkQueueOptions None None)
                        (mkWorkerOptions None None)) = None
  ∧ process (set_isRunning true
               (set_processFn tt
                  (Worker.new unit "q" (mkQueueOptions None None)
                              (mkWorkerOptions None None))))
            tt QueueSpec.fresh_world
    = (Reject (WorkerError "Cannot set multiple process functions"),
       QueueSpec.fresh_world).
Proof.
  pose proof (process_single_handler
                (Worker.new unit "q" (mkQueueOptions None None)
                            (mkWorkerOptions None None))
                tt tt QueueSpec.fresh_world QueueSpec.fresh_world eq_refl)
    as H.
  cbv zeta in H. destruct H as (_ & _ & _ & H4 & _).
  exact (conj eq_refl H4).
Defined.

(** *** The dispatcher and the pause flag *)

Lemma moveToActive_paused (now : Z) (flag : option string) (st : Store) :
  Scripts.moveToActive now (set_paused flag st)
  = ((Scripts.moveToActive now st).1,
     set_paused flag (Scripts.moveToActive now st).2).
Proof.
  unfold Scripts.moveToActive. simpl.
  destruct (rpop (waiting st)) as [[jobId rest]|]; reflexivity.
Qed.

Lemma moveToActive_keeps_flag (now : Z) (st : Store) :
  paused (Scripts.moveToActive now st).2 = paused st.
Proof.
  unfold Scripts.moveToActive.
  destruct (rpop (waiting st)) as [[jobId rest]|]; reflexivity.
Qed.

(** What [getNextJob] hands to the loop: [jobId || null]. *)
Definition next_of (popped : option string) : option string :=
  match popped with
  | Some s => if decide (s = "") then None else Some s
  | None => None
  end.

Lemma processJobs_turn_dispatch {H : Type} (w : Worker.t H)
    (activeJobs count now : Z) (wd : World) :
  isRunning w && below_max w count = true →
  activeJobs < concurrency w →
  processFn w ≠ None →
  processJobs_turn w activeJobs count now wd
  = (Resolve (match next_of (Scripts.moveToActive now (store wd)).1 with
              | Some _ => Next (count + 1)
              | None => Next count
              end),
     mkWorld (Scripts.moveToActive now (store wd)).2
             (log wd ++ [CallMoveToActive now;
                         match next_of (Scripts.moveToActive now (store wd)).1
                         with
                         | Some jobId => Start (RunProcessJob jobId)
                         | None => Sleep 100
                         end])).
Proof.
  intros Hrun Hslot Hfn. unfold processJobs_turn. rewrite Hrun. simpl.
  destruct (Z.leb_spec (concurrency w) activeJobs) as [?|_]; [lia|].
  unfold getNextJob. destruct (processFn w) as [f|]; [|contradiction].
  unfold bind, act, script, ret, next_of. simpl.
  destruct (Scripts.moveToActive now (store wd)) as [[s|] st']; simpl.
  - destruct (decide (s = "")); simpl; rewrite <- app_assoc; reflexivity.
  - rewrite <- app_assoc. reflexivity.
Qed.


(** C8, as stated, fails: a turn of the dispatcher taken while the
    pause flag is set does invoke [moveToActive], moves job "a" to
    active and starts its execution; it does not sleep. *)
Lemma dispatcher_paused_counterexample :
  Queue.isPaused paused_with_work = (Resolve true, paused_with_work)
  ∧ (processJobs_turn running_worker 0 0 7 paused_with_work).1
    = Resolve (Next 1)
  ∧ log (processJobs_turn running_worker 0 0 7 paused_with_work).2
    = [CallMoveToActive 7; Start (RunProcessJob "a")]
  ∧ active (store (processJobs_turn running_worker 0 0 7 paused_with_work).2)
    = ["a"].
Proof. repeat split; reflexivity. Qed.

(** C8 (amended): the dispatcher never consults the queue's pause flag.
    A turn of its loop has the same outcome, logs the same actions and
    has the same effect on the key-space whatever the flag is, and
    leaves the flag as it was.  In particular, with the loop running, a
    free slot and a handler installed, the turn invokes [moveToActive]
    also while the queue is paused; it sleeps the 100 ms idle interval
    only when [moveToActive] yields no id, and otherwise starts the
    execution of the id it got. *)
Theorem processJobs_turn_ignores_pause {H : Type} (w : Worker.t H)
    (activeJobs count now : Z) (wd : World) (flag : option string) :
  let r := processJobs_turn w activeJobs count now wd in
  processJobs_turn w activeJobs count now (with_paused flag wd)
  = (r.1, with_paused flag r.2)
  ∧ paused (store r.2) = paused (store wd)
  ∧ (isRunning w && below_max w count = true →
     activeJobs < concurrency w →
     processFn w ≠ None →
     r.1 = Resolve (match next_of (Scripts.moveToActive now (store wd)).1 with
                    | Some _ => Next (count + 1)
                    | None => Next count
                    end)
     ∧ store r.2 = (Scripts.moveToActive now (store wd)).2
     ∧ log r.2
       = log wd ++ [CallMoveToActive now;
                    match next_of (Scripts.moveToActive now (store wd)).1 with
                    | Some jobId => Start (RunProcessJob jobId)
                    | None => Sleep 100
                    end]).
Proof.
  cbv zeta. split; [|split].
  - unfold processJobs_turn.
    destruct (isRunning w && below_max w count); simpl; [|reflexivity].
    destruct (concurrency w <=? activeJobs); [reflexivity|].
    unfold getNextJob. destruct (processFn w) as [f|].
    + unfold bind, act, script, ret. simpl.
      rewrite moveToActive_paused. simpl.
      destruct (Scripts.moveToActive now (store wd)) as [[s|] st']; simpl;
        [destruct (decide (s = "")); reflexivity | reflexivity].
    + reflexivity.
  - unfold processJobs_turn.
    destruct (isRunning w && below_max w count); simpl; [|reflexivity].
    destruct (concurrency w <=? activeJobs); [reflexivity|].
    unfold getNextJob. destruct (processFn w) as [f|]; [|reflexivity].
    unfold bind, act, script, ret. simpl.
    pose proof (moveToActive_keeps_flag now (store wd)) as Hk.
    destruct (Scripts.moveToActive now (store wd)) as [[s|] st']; simpl in *;
      [destruct (decide (s = "")); exact Hk | exact Hk].
  - intros Hrun Hslot Hfn.
    rewrite (processJobs_turn_dispatch w activeJobs count now wd Hrun Hslot Hfn).
    done.
Qed.

Lemma processJobs_turn_ignores_pause_witness :
  isRunning running_worker && below_max running_worker 0 = true
  ∧ 0 < concurrency running_worker
  ∧ processFn running_worker ≠ None
  ∧ paused (store paused_with_work) = Some "1"
  ∧ log (processJobs_turn running_worker 0 0 7 paused_with_work).2
    = [CallMoveToActive 7; Start (RunProcessJob "a")].
Proof.
  pose proof (processJobs_turn_ignores_pause
                running_worker 0 0 7 paused_with_work None) as H.
  cbv zeta in H. destruct H as (_ & _ & H).
  assert (Hfn : processFn running_worker ≠ None) by discriminate.
  destruct (H eq_refl eq_refl Hfn) as (_ & _ & Hlog).
  exact (conj eq_refl (conj eq_refl (conj Hfn (conj eq_refl Hlog)))).
Defined.


(** *** The failure path *)

(** [job.options.attempts || 1]: the configured number of attempts,
    and 1 when it is absent or zero. *)
Definition attempts_limit (o : JobOptions) : Z := or_opt_num (attempts o) 1.

Lemma attempts_limit_cases (o : JobOptions) :
  match attempts o with
  | None => attempts_limit o = 1
  | Some n => if decide (n = 0) then attempts_limit o = 1
              else attempts_limit o = n
  end.
Proof.
  unfold attempts_limit. destruct (attempts o) as [n|]; [|reflexivity].
  simpl. destruct (decide (n = 0)) as [->|Hn]; [reflexivity|].
  by apply BackoffSpec.or_num_nonzero.
Qed.

Lemma shouldRetry_iff (job : Job) :
  shouldRetry job = true ↔ attemptsMade job < attempts_limit (options job).
Proof. unfold shouldRetry, attempts_limit. apply Z.ltb_lt. Qed.

Lemma failed_attempt_attemptsMade (job : Job) (error : JsError) :
  attemptsMade (failed_attempt job error) = attemptsMade job + 1.
Proof. unfold failed_attempt. simpl. by rewrite BackoffSpec.or_num_same. Qed.

Definition with_attempts (n : Z) : JobOptions :=
  mkJobOptions (Some n) None None None None None None.

Definition boom : JsError := mkJsError "boom" None.

(** The world after [add(t, {}, options)] on a ready queue and one
    dispatch of the job by [moveToActive]. *)
Definition dispatched (options : JobOptions) : World :=
  let w := (Queue.add (QueueSpec.ready_queue noOptions) "a" 10 10 "t" "{}"
                      options QueueSpec.fresh_world).2 in
  mkWorld (Scripts.moveToActive 20 (store w)).2 (log w).

(** C7, as stated, fails in its last part: a job enqueued with
    [attempts: 0] runs once, and its first failure takes it to status
    [failed] with [attemptsMade = 1 > 0 = options.attempts]; likewise
    with [attempts: -1].  (Zero counts as 1 in the retry test; a
    negative number is taken as it is.) *)
Lemma failJob_attempts_counterexample :
  let r := failJob 30 "a" boom (dispatched (with_attempts 0)) in
  let r' := failJob 30 "a" boom (dispatched (with_attempts (-1))) in
  (∃ job, hget_data "a" (store r.2) = Some job
          ∧ status job = Failed
          ∧ attempts (options job) = Some 0
          ∧ attemptsMade job = 1)
  ∧ (∃ job, hget_data "a" (store r'.2) = Some job
            ∧ status job = Failed
            ∧ attempts (options job) = Some (-1)
            ∧ attemptsMade job = 1)
  ∧ ¬ 1 ≤ 0 ∧ ¬ 1 ≤ -1.
Proof.
  cbv zeta. split; [eexists; repeat split; reflexivity|].
  split; [eexists; repeat split; reflexivity|]. lia.
Qed.


(** C7 (amended): for every failed execution whose hash record still
    exists, the failure path increments [attemptsMade] by exactly 1,
    records [failedReason] and appends one entry to [stackTrace].  With
    the limit being [options.attempts], or 1 when that is absent or
    zero: if the incremented [attemptsMade] is below the limit, one
    transaction ZADDs the record's id into delayed with score
    [now + backoff], writes the job back with status [delayed] and
    LREMs the id from active, and [failed] then [retrying] are emitted;
    otherwise the status is [failed], one transaction LREMs the id from
    active and deletes the hash iff [removeOnFail] is truthy, else
    writes the job back, and [failed] is emitted.  When the record came
    in with [attemptsMade] below the limit (as every record written by
    [add] with a positive limit or by a retry is), [attemptsMade]
    equals the limit upon reaching status [failed], so it is at most
    [options.attempts] whenever that is set and non-zero. *)
Theorem failJob_spec (now : Z) (jobId : string) (error : JsError)
    (w : World) (job0 : Job) :
  hget_data jobId (store w) = Some job0 →
  let job := failed_attempt job0 error in
  let limit := attempts_limit (options job0) in
  let r := failJob now jobId error w in
  r.1 = Resolve tt
  ∧ attemptsMade job = attemptsMade job0 + 1
  ∧ failedReason job = Some (message error)
  ∧ stackTrace job
    = Some (default [] (stackTrace job0)
              ++ [or_opt_string (stack error) (message error)])
  ∧ (attemptsMade job < limit →
       let job' := set_status Delayed job in
       let score :=
         now + BackoffFn.calculateBackoff (attemptsMade job) (options job0) in
       let tx := [ZADD score (id job0); HSET jobId job';
                  LREM KActive 0 (id job0)] in
       r.2 = mkWorld (exec tx (store w))
                     (log w ++ [Multi tx; Emit (EvFailed job' error);
                                Emit (EvRetrying job')])
       ∧ hget_data jobId (store r.2) = Some job'
       ∧ status job' = Delayed
       ∧ attemptsMade job' < attempts_limit (options job')
       ∧ delayed (store r.2) !! id job0 = Some score
       ∧ (id job0 ∉ active (store r.2)))
  ∧ (limit ≤ attemptsMade job →
       let job' := set_status Failed job in
       let tx := LREM KActive 0 (id job0) ::
                 (if truthy_flag (removeOnFail (options job0))
                  then [DEL jobId] else [HSET jobId job']) in
       r.2 = mkWorld (exec tx (store w))
                     (log w ++ [Multi tx; Emit (EvFailed job' error)])
       ∧ status job' = Failed
       ∧ (id job0 ∉ active (store r.2))
       ∧ (if truthy_flag (removeOnFail (options job0))
          then jobs (store r.2) !! jobId = None
          else hget_data jobId (store r.2) = Some job')
       ∧ (attemptsMade job0 < limit →
            attemptsMade job' = limit
            ∧ ∀ n, attempts (options job0) = Some n → n ≠ 0 →
                   attemptsMade job' ≤ n)).
Proof.
  intros Hj job limit r.
  assert (Hn : attemptsMade job = attemptsMade job0 + 1)
    by apply failed_attempt_attemptsMade.
  assert (Hrun : r = if shouldRetry job
                     then (Resolve tt,
                           mkWorld
                             (exec (retry_tx now jobId (set_status Delayed job))
                                   (store w))
                             (log w ++
                                [Multi (retry_tx now jobId
                                          (set_status Delayed job));
                                 Emit (EvFailed (set_status Delayed job) error);
                                 Emit (EvRetrying (set_status Delayed job))]))
                     else (Resolve tt,
                           mkWorld
                             (exec (terminal_tx jobId (set_status Failed job))
                                   (store w))
                             (log w ++
                                [Multi (terminal_tx jobId
                                          (set_status Failed job));
                                 Emit (EvFailed (set_status Failed job) error)]))).
  { subst r. unfold failJob, bind, read. rewrite Hj. fold job.
    destruct (shouldRetry job);
      unfold multi_exec, emit, bind, act, write; simpl;
      rewrite <- !app_assoc; reflexivity. }
  split; [rewrite Hrun; by destruct (shouldRetry job)|].
  split; [exact Hn|]. split; [reflexivity|]. split; [reflexivity|].
  split.
  - intros Hlt. cbv zeta.
    assert (Hs : shouldRetry job = true) by (by apply shouldRetry_iff).
    rewrite Hrun, Hs. cbn [snd store log].
    split; [reflexivity|].
    split; [unfold hget_data, retry_tx; simpl; unfold hset_data;
            by rewrite lookup_insert_eq|].
    split; [reflexivity|]. split; [exact Hlt|].
    split; [unfold retry_tx; simpl; apply lookup_insert_eq|].
    unfold retry_tx. simpl. apply QueueSpec.lrem_all_not_elem.
  - intros Hge. cbv zeta.
    assert (Hs : shouldRetry job = false).
    { destruct (shouldRetry job) eqn:E; [|reflexivity].
      apply shouldRetry_iff in E. change (options job) with (options job0) in E.
      fold limit in E. lia. }
    rewrite Hrun, Hs. cbn [snd store log].
    split; [reflexivity|]. split; [reflexivity|].
    change (options (set_status Failed job)) with (options job0).
    unfold terminal_tx.
    change (options (set_status Failed job)) with (options job0).
    split; [|split].
    + destruct (truthy_flag (removeOnFail (options job0))); simpl;
        apply QueueSpec.lrem_all_not_elem.
    + destruct (truthy_flag (removeOnFail (options job0))); simpl.
      * apply lookup_delete_eq.
      * unfold hget_data, hset_data. simpl. by rewrite lookup_insert_eq.
    + intros Hbelow.
      assert (Heq : attemptsMade (set_status Failed job) = limit).
      { change (attemptsMade (set_status Failed job)) with (attemptsMade job).
        lia. }
      split; [exact Heq|].
      intros n Hsome Hnz. rewrite Heq. subst limit.
      pose proof (attempts_limit_cases (options job0)) as Hc.
      rewrite Hsome in Hc. destruct (decide (n = 0)); [contradiction|]. lia.
Qed.

Definition with_attempts_fixed (n d : Z) : JobOptions :=
  mkJobOptions (Some n) (Some (Backoff.mk "fixed" d)) None None None None None.

Lemma failJob_spec_witness :
  (∃ job0,
      hget_data "a" (store (dispatched (with_attempts_fixed 2 50))) = Some job0
      ∧ attemptsMade (failed_attempt job0 boom) < attempts_limit (options job0)
      ∧ delayed (store (failJob 30 "a" boom
                          (dispatched (with_attempts_fixed 2 50))).2)
        !! "a" = Some 80)
  ∧ (∃ job0,
      hget_data "a" (store (dispatched noOptions)) = Some job0
      ∧ attempts_limit (options job0) ≤ attemptsMade (failed_attempt job0 boom)
      ∧ attemptsMade job0 < attempts_limit (options job0)
      ∧ attemptsMade (set_status Failed (failed_attempt job0 boom)) = 1).
Proof.
  split.
  - eexists. split; [reflexivity|]. split; [reflexivity|].
    pose proof (failJob_spec 30 "a" boom
                  (dispatched (with_attempts_fixed 2 50)) _ eq_refl) as H.
    cbv zeta in H. destruct H as (_ & _ & _ & _ & Hretry & _).
    destruct (Hretry eq_refl) as (_ & _ & _ & _ & Hd & _). exact Hd.
  - eexists. split; [reflexivity|].
    split; [discriminate|]. split; [reflexivity|].
    pose proof (failJob_spec 30 "a" boom (dispatched noOptions) _ eq_refl)
      as H.
    cbv zeta in H. destruct H as (_ & _ & _ & _ & _ & Hterm).
    destruct (Hterm ltac:(discriminate)) as (_ & _ & _ & _ & Hlim).
    destruct (Hlim eq_refl) as [Heq _]. exact Heq.
Defined.

End WorkerSpec.

(** * Further properties of the code *)

(** ** The producer, operation by operation *)

Module QueueProps.
Import Types Redis Effects Queue.

Lemma add_ready_eq (q : Queue.t) (uuid : string) (now now' : Z)
    (name data : string) (options : JobOptions) (w : World) :
  isReady q = true →
  add q uuid now now' name data options w
  = (Resolve (new_job q uuid now name data options),
     mkWorld
       (exec (add_tx (new_job q uuid now name data options) now' options)
             (store w))
       (log w ++
          [Multi (add_tx (new_job q uuid now name data options) now' options);
           Emit (EvAdded (new_job q uuid now name data options))])).
Proof.
  intros Hready. unfold add. rewrite Hready. simpl.
  unfold multi_exec, emit, bind, act, write, ret. simpl.
  rewrite <- app_assoc. reflexivity.
Qed.

(** The key-space [add] leaves, by the status of the new job. *)
Lemma add_store (q : Queue.t) (uuid : string) (now now' : Z)
    (name data : string) (options : JobOptions) (st : Store) :
  let job := new_job q uuid now name data options in
  exec (add_tx job now' options) st
  = if truthy_opt_num (delay options)
    then mkStore (waiting st) (active st)
                 (<[uuid := now' + or_opt_num (delay options) 0]> (delayed st))
                 (hset_data uuid job (jobs st)) (paused st)
    else mkStore (uuid :: waiting st) (active st) (delayed st)
                 (hset_data uuid job (jobs st)) (paused st).
Proof.
  cbv zeta. unfold add_tx, new_job. simpl.
  destruct (truthy_opt_num (delay options)); reflexivity.
Qed.

Lemma lrem_all_fresh (v : string) (l : list string) : v ∉ l → lrem 0 v l = l.
Proof.
  intros Hv. unfold lrem. simpl. induction l as [|x l IH]; [reflexivity|].
  rewrite filter_cons. apply not_elem_of_cons in Hv as [Hne Hl].
  rewrite decide_True by congruence. f_equal. by apply IH.
Qed.

Lemma lrem_all_head (v : string) (l : list string) :
  lrem 0 v (v :: l) = lrem 0 v l.
Proof.
  unfold lrem. simpl. rewrite filter_cons.
  destruct (decide (v ≠ v)); [contradiction | reflexivity].
Qed.

(** X1: [pause] then [isPaused] answers true and [resume] then
    [isPaused] answers false, whatever the flag was before; [pause]
    followed by [resume] leaves the flag cleared, the lists, the
    delayed set and the hashes untouched, and emits [paused] then
    [resumed]. *)
Theorem pause_resume_isPaused (w : World) :
  (isPaused (pause w).2).1 = Resolve true
  ∧ (isPaused (resume w).2).1 = Resolve false
  ∧ (isPaused (resume (pause w).2).2).1 = Resolve false
  ∧ (isPaused (pause (resume w).2).2).1 = Resolve true
  ∧ store (resume (pause w).2).2 = set_paused None (store w)
  ∧ log (resume (pause w).2).2
    = log w ++ [SetPaused "1"; Emit EvPaused; DelPaused; Emit EvResumed].
Proof.
  destruct w as [st l]. unfold pause, resume, isPaused, bind, act, write,
    emit, read, ret. simpl.
  repeat (split; [reflexivity|]).
  rewrite <- !app_assoc. reflexivity.
Qed.

(** X2: on a ready queue, [getJob] of the id just added resolves to
    exactly the job [add] returned, and the records of all other ids
    read as before. *)
Theorem add_getJob_roundtrip (q : Queue.t) (uuid : string) (now now' : Z)
    (name data : string) (options : JobOptions) (w : World) :
  isReady q = true →
  let r := add q uuid now now' name data options w in
  ∃ job, r.1 = Resolve job
         ∧ getJob uuid r.2 = (Resolve (Some job), r.2)
         ∧ ∀ i, i ≠ uuid → hget_data i (store r.2) = hget_data i (store w).
Proof.
  intros Hready. cbv zeta. rewrite (add_ready_eq _ _ _ _ _ _ _ _ Hready).
  eexists. split; [reflexivity|]. cbn [fst snd store].
  rewrite add_store. split.
  - apply QueueSpec.getJob_present. simpl.
    destruct (truthy_opt_num (delay options)); unfold hget_data, hset_data;
      simpl; by rewrite lookup_insert_eq.
  - intros i Hi.
    destruct (truthy_opt_num (delay options)); unfold hget_data, hset_data;
      simpl; by rewrite lookup_insert_ne.
Qed.

Lemma add_getJob_roundtrip_witness :
  isReady (QueueSpec.ready_queue noOptions) = true
  ∧ ∃ job,
      (add (QueueSpec.ready_queue noOptions) "id1" 10 12 "t" "{}" noOptions
           QueueSpec.fresh_world).1 = Resolve job
      ∧ (getJob "id1"
           (add (QueueSpec.ready_queue noOptions) "id1" 10 12 "t" "{}"
                noOptions QueueSpec.fresh_world).2).1
        = Resolve (Some job).
Proof.
  split; [reflexivity|].
  destruct (add_getJob_roundtrip (QueueSpec.ready_queue noOptions) "id1" 10 12
              "t" "{}" noOptions QueueSpec.fresh_world eq_refl)
    as (job & H1 & H2 & _).
  exists job. split; [exact H1|]. rewrite H2. reflexivity.
Defined.

(** X3: on a ready queue, [add] of an id that occurs nowhere in the
    key-space followed by [removeJob] of that id gives the key-space
    back as it was; the two calls emit [added] then [removed]. *)
Theorem add_removeJob_restores (q : Queue.t) (uuid : string) (now now' : Z)
    (name data : string) (options : JobOptions) (w : World) :
  isReady q = true →
  uuid ∉ waiting (store w) →
  uuid ∉ active (store w) →
  delayed (store w) !! uuid = None →
  jobs (store w) !! uuid = None →
  let job := new_job q uuid now name data options in
  let r := removeJob uuid (add q uuid now now' name data options w).2 in
  r.1 = Resolve tt
  ∧ store r.2 = store w
  ∧ log r.2 = log w ++ [Multi (add_tx job now' options); Emit (EvAdded job);
                        Multi (removeJob_tx uuid); Emit (EvRemoved uuid)].
Proof.
  intros Hready Hw Ha Hd Hj. cbv zeta.
  rewrite (add_ready_eq _ _ _ _ _ _ _ _ Hready). cbn [snd].
  set (job := new_job q uuid now name data options).
  set (w1 := mkWorld _ _).
  assert (Hg : hget_data uuid (store w1) = Some job).
  { subst w1. cbn [store]. subst job. rewrite add_store.
    destruct (truthy_opt_num (delay options)); unfold hget_data, hset_data;
      simpl; by rewrite lookup_insert_eq. }
  unfold removeJob, bind. rewrite (QueueSpec.getJob_present _ _ _ Hg).
  unfold multi_exec, emit, bind, act, write. cbn [fst snd store log].
  split; [reflexivity|]. split.
  - subst w1. cbn [store]. rewrite QueueSpec.exec_removeJob_tx.
    subst job. rewrite add_store.
    destruct (store w) as [wl al dl jl pl]. simpl in *.
    destruct (truthy_opt_num (delay options)); simpl; unfold hset_data.
    + rewrite !lrem_all_fresh by done.
      rewrite !delete_insert_id by done. reflexivity.
    + rewrite lrem_all_head, !lrem_all_fresh by done.
      rewrite delete_insert_id by done. rewrite delete_id by done.
      reflexivity.
  - subst w1. cbn [log]. rewrite <- !app_assoc. reflexivity.
Qed.

Lemma add_removeJob_restores_witness :
  isReady (QueueSpec.ready_queue noOptions) = true
  ∧ ("id1" ∉ waiting (store QueueSpec.one_job))
  ∧ store (removeJob "id1"
             (add (QueueSpec.ready_queue noOptions) "id1" 10 12 "t" "{}"
                  (QueueSpec.with_delay 50) QueueSpec.one_job).2).2
    = store QueueSpec.one_job.
Proof.
  assert (Hw : "id1" ∉ waiting (store QueueSpec.one_job)).
  { simpl. intros Hin. apply list_elem_of_singleton in Hin. discriminate. }
  assert (Ha : "id1" ∉ active (store QueueSpec.one_job)).
  { simpl. apply not_elem_of_nil. }
  destruct (add_removeJob_restores (QueueSpec.ready_queue noOptions) "id1" 10 12
              "t" "{}" (QueueSpec.with_delay 50) QueueSpec.one_job
              eq_refl Hw Ha eq_refl eq_refl) as (_ & H2 & _).
  exact (conj eq_refl (conj Hw H2)).
Defined.


(** X4: on a ready queue, [add] of an id that is not already in the
    delayed set raises [count()] by exactly one, delayed or not. *)
Theorem count_add (q : Queue.t) (uuid : string) (now now' : Z)
    (name data : string) (options : JobOptions) (w : World) :
  isReady q = true →
  delayed (store w) !! uuid = None →
  ∃ n, (count w).1 = Resolve n
       ∧ (count (add q uuid now now' name data options w).2).1
         = Resolve (n + 1).
Proof.
  intros Hready Hd. rewrite (add_ready_eq _ _ _ _ _ _ _ _ Hready).
  eexists. split; [reflexivity|]. unfold count, read. cbn [fst snd store].
  rewrite add_store. f_equal.
  destruct (truthy_opt_num (delay options)); cbn [waiting active delayed].
  - rewrite map_size_insert_None by done. lia.
  - rewrite length_cons. lia.
Qed.

Lemma count_add_witness :
  isReady (QueueSpec.ready_queue noOptions) = true
  ∧ delayed (store QueueSpec.one_job) !! "id1" = None
  ∧ ∃ n, (count QueueSpec.one_job).1 = Resolve n
         ∧ (count (add (QueueSpec.ready_queue noOptions) "id1" 10 12 "t" "{}"
                       (QueueSpec.with_delay 50) QueueSpec.one_job).2).1
           = Resolve (n + 1).
Proof.
  exact (conj eq_refl (conj eq_refl
           (count_add (QueueSpec.ready_queue noOptions) "id1" 10 12 "t" "{}"
                      (QueueSpec.with_delay 50) QueueSpec.one_job
                      eq_refl eq_refl))).
Defined.

(** X5: a queue refuses [add] with a queue-category error, touching
    nothing, from its construction until [initialize] has resolved and
    again after [close]; [initialize] emits [ready] and makes the queue
    ready, keeping its name, prefix and default options. *)
Theorem queue_lifecycle (qname : string) (qoptions : QueueOptions)
    (uuid : string) (now now' : Z) (name data : string)
    (options : JobOptions) (w w' w'' : World) :
  let q0 := Queue.new qname qoptions in
  let q1 := set_isReady true q0 in
  add q0 uuid now now' name data options w
  = (Reject (QueueError "Queue is not ready"), w)
  ∧ initialize q0 w' = (Resolve q1, mkWorld (store w') (log w' ++ [Emit EvReady]))
  ∧ (add q1 uuid now now' name data options w).1
    = Resolve (new_job q0 uuid now name data options)
  ∧ (∃ q2, (close q1 w'').1 = Resolve q2
           ∧ add q2 uuid now now' name data options w
             = (Reject (QueueError "Queue is not ready"), w)).
Proof.
  cbv zeta. split; [reflexivity|]. split; [reflexivity|].
  split; [rewrite add_ready_eq by reflexivity; reflexivity|].
  eexists. split; reflexivity.
Qed.



End QueueProps.

(** ** The scripts: conservation and order *)

Module ScriptsProps.
Import Types Redis Scripts.

Lemma moveToActive_snoc (ts : Z) (st : Store) (rest : list string)
    (jobId : string) :
  waiting st = rest ++ [jobId] →
  moveToActive ts st
  = (Some jobId,
     mkStore rest (jobId :: active st) (delayed st)
             (hset_startedAt jobId ts (jobs st)) (paused st)).
Proof.
  intros Hw. unfold moveToActive. rewrite Hw, ScriptsSpec.rpop_snoc.
  reflexivity.
Qed.

Lemma moveToActive_empty (ts : Z) (st : Store) :
  waiting st = [] → moveToActive ts st = (None, st).
Proof. intros Hw. unfold moveToActive. rewrite Hw. reflexivity. Qed.

Lemma list_nil_or_snoc {A} (l : list A) : l = [] ∨ ∃ r x, l = r ++ [x].
Proof.
  induction l as [|r x _] using rev_ind; [by left | right; eauto].
Qed.

(** X7: [moveToActive] neither loses nor duplicates an id: the waiting
    list followed by the active list reads the same before and after
    (the tail of waiting becomes the head of active), and the delayed
    set, the pause flag and every [data] field are untouched; so
    [count()] is unchanged by a dispatch. *)
Theorem moveToActive_conserves (ts : Z) (st : Store) :
  let st' := (moveToActive ts st).2 in
  waiting st' ++ active st' = waiting st ++ active st
  ∧ delayed st' = delayed st
  ∧ paused st' = paused st
  ∧ (∀ i, hget_data i st' = hget_data i st)
  ∧ ((Queue.count (Effects.mkWorld st' [])).1
     = (Queue.count (Effects.mkWorld st [])).1).
Proof.
  cbv zeta.
  destruct (list_nil_or_snoc (waiting st)) as [Hw|(rest & x & Hw)].
  - rewrite (moveToActive_empty _ _ Hw). done.
  - rewrite (moveToActive_snoc _ _ _ _ Hw). cbn [snd waiting active delayed paused].
    split; [rewrite Hw, <- app_assoc; reflexivity|].
    split; [reflexivity|]. split; [reflexivity|]. split.
    + intros i. unfold hget_data, hset_startedAt. simpl.
      destruct (decide (x = i)) as [->|Hne].
      * rewrite lookup_insert_eq. reflexivity.
      * rewrite lookup_insert_ne by done. reflexivity.
    + unfold Queue.count, Effects.read. simpl. rewrite Hw, length_app. simpl.
      f_equal. lia.
Qed.

(** [n] successive dispatches, with the ids they return. *)
Fixpoint drain (n : nat) (ts : Z) (st : Store) : list (option string) * Store :=
  match n with
  | O => ([], st)
  | S n' =>
      let r := moveToActive ts st in
      let rs := drain n' ts r.2 in
      (r.1 :: rs.1, rs.2)
  end.

(** The ids [xs] enqueued one after the other, each by LPUSH. *)
Definition push_all (xs : list string) (st : Store) : Store :=
  foldl (λ s x, exec_cmd s (LPUSH KWaiting x)) st xs.

Lemma push_all_waiting (xs : list string) (st : Store) :
  waiting (push_all xs st) = reverse xs ++ waiting st.
Proof.
  unfold push_all. revert st.
  induction xs as [|x xs IH]; intros st; [reflexivity|].
  simpl. rewrite IH, reverse_cons, <- app_assoc. reflexivity.
Qed.

Lemma drain_all (ts : Z) (l : list string) :
  ∀ st, waiting st = l →
    (drain (length l) ts st).1 = Some <$> reverse l
    ∧ waiting (drain (length l) ts st).2 = []
    ∧ active (drain (length l) ts st).2 = l ++ active st.
Proof.
  induction l as [|x l IH] using rev_ind; intros st Hw.
  - simpl. rewrite Hw. done.
  - rewrite length_app, Nat.add_comm. simpl.
    rewrite (moveToActive_snoc _ _ _ _ Hw). cbn [fst snd].
    destruct (IH (mkStore l (x :: active st) (delayed st)
                          (hset_startedAt x ts (jobs st)) (paused st))
                 eq_refl) as (H1 & H2 & H3).
    rewrite H1, H2, H3. rewrite reverse_snoc. simpl.
    rewrite <- app_assoc. done.
Qed.

(** X8: dispatch is first in, first out.  After ids [xs] are pushed one
    by one onto the waiting list, as many dispatches as the list is
    long return first the ids that were waiting already, oldest first,
    then [xs] in the order they were pushed; the waiting list is then
    empty and a further dispatch returns nil. *)
Theorem dispatch_fifo (ts : Z) (xs : list string) (st : Store) :
  let st1 := push_all xs st in
  let n := length (waiting st1) in
  (drain n ts st1).1 = Some <$> (reverse (waiting st) ++ xs)
  ∧ waiting (drain n ts st1).2 = []
  ∧ (moveToActive ts (drain n ts st1).2).1 = None.
Proof.
  cbv zeta.
  destruct (drain_all ts (waiting (push_all xs st)) (push_all xs st) eq_refl)
    as (H1 & H2 & _).
  split; [|split; [exact H2|]].
  - rewrite H1, push_all_waiting, reverse_app, reverse_involutive. reflexivity.
  - rewrite (moveToActive_empty _ _ H2). reflexivity.
Qed.

(** *** Promotion *)

Lemma zrangebyscore_nil (lo hi : Z) (z : gmap string Z) :
  (∀ i s, z !! i = Some s → s < lo ∨ hi < s) → zrangebyscore lo hi z = [].
Proof.
  intros Hout. apply elem_of_nil_inv. intros i Hin.
  apply ScriptsSpec.elem_of_zrangebyscore in Hin as (s & Hs & ? & ?).
  destruct (Hout i s Hs); lia.
Qed.

(** When no score of the delayed set lies in [0, nowMs] (an empty set,
    a negative [nowMs], nothing due yet), [processDelayed] returns the
    empty list and changes nothing. *)
Lemma processDelayed_nothing_due (nowMs : Z) (st : Store) :
  (∀ i s, delayed st !! i = Some s → s < 0 ∨ nowMs < s) →
  processDelayed nowMs st = ([], st).
Proof.
  intros Hout. unfold processDelayed.
  rewrite (zrangebyscore_nil _ _ _ Hout). reflexivity.
Qed.

Lemma processDelayed_nothing_due_witness :
  (∀ i s, delayed ScriptsSpec.two_delayed !! i = Some s → s < 0 ∨ 2 < s)
  ∧ processDelayed 2 ScriptsSpec.two_delayed = ([], ScriptsSpec.two_delayed).
Proof.
  assert (H : ∀ i s, delayed ScriptsSpec.two_delayed !! i = Some s
                     → s < 0 ∨ 2 < s).
  { intros i s. unfold ScriptsSpec.two_delayed. cbn [delayed].
    destruct (decide (i = "due")) as [->|Hd].
    - rewrite lookup_insert_eq. intros [= <-]. lia.
    - rewrite lookup_insert_ne by done.
      destruct (decide (i = "later")) as [->|Hl].
      + rewrite lookup_singleton_eq. intros [= <-]. lia.
      + rewrite lookup_singleton_ne by done. discriminate. }
  exact (conj H (processDelayed_nothing_due 2 ScriptsSpec.two_delayed H)).
Defined.

(** X9: promotion is idempotent in time: right after a run at
    [nowMs], a run at the same or an earlier timestamp promotes
    nothing and changes nothing, so no id is promoted twice. *)
Theorem processDelayed_idempotent (nowMs earlier : Z) (st : Store) :
  earlier ≤ nowMs →
  processDelayed earlier (processDelayed nowMs st).2
  = ([], (processDelayed nowMs st).2).
Proof.
  intros Hle. apply processDelayed_nothing_due. intros i s.
  rewrite ScriptsSpec.processDelayed_unfold. cbn [snd].
  rewrite ScriptsSpec.promote_loop_delayed.
  destruct (decide (i ∈ zrangebyscore 0 nowMs (delayed st))) as [|Hnin];
    [discriminate|].
  intros Hs. destruct (decide (0 ≤ s ∧ s ≤ nowMs)) as [Hin|Hout]; [|lia].
  exfalso. apply Hnin. apply ScriptsSpec.elem_of_zrangebyscore.
  exists s. tauto.
Qed.

Lemma processDelayed_idempotent_witness :
  5 ≤ 5
  ∧ processDelayed 5 (processDelayed 5 ScriptsSpec.two_delayed).2
    = ([], (processDelayed 5 ScriptsSpec.two_delayed).2).
Proof.
  assert (H : 5 ≤ 5) by lia.
  exact (conj H (processDelayed_idempotent 5 5 ScriptsSpec.two_delayed H)).
Defined.


(** *** Promotion order and conservation *)

Definition by_score (a b : string * Z) : Prop := a.2 ≤ b.2.

#[local] Instance by_score_trans : Transitive by_score.
Proof. intros a b c. unfold by_score. lia. Qed.

Lemma Sorted_weaken {A} (R R' : relation A) (l : list A) :
  (∀ x y, R x y → R' x y) → Sorted R l → Sorted R' l.
Proof.
  intros Himp Hs. induction Hs as [|x l Hs IH Hhd]; constructor; [exact IH|].
  destruct Hhd; constructor. by apply Himp.
Qed.

Lemma StronglySorted_at {A} (R : relation A) (l : list A) :
  StronglySorted R l →
  ∀ (i j : nat) a b, (i < j)%nat → l !! i = Some a → l !! j = Some b → R a b.
Proof.
  induction 1 as [|x l Hs IH Hall]; intros i j a b Hij Hi Hj.
  - by rewrite lookup_nil in Hi.
  - destruct j as [|j]; [lia|]. destruct i as [|i].
    + simpl in Hi, Hj. injection Hi as <-.
      rewrite Forall_forall in Hall. apply Hall.
      by eapply list_elem_of_lookup_2.
    + simpl in Hi, Hj. apply (IH i j); [lia | done | done].
Qed.

Lemma due_pairs_in (lo hi : Z) (z : gmap string Z) (p : string * Z) :
  p ∈ merge_sort zle
        (filter (λ p : string * Z, lo ≤ p.2 ∧ p.2 ≤ hi) (map_to_list z)) →
  z !! p.1 = Some p.2.
Proof.
  rewrite merge_sort_Permutation. intros Hin.
  apply list_elem_of_filter in Hin as [_ Hin]. destruct p as [k s].
  by apply elem_of_map_to_list.
Qed.

(** X10: [processDelayed] returns the promoted ids lowest score first:
    of two returned ids the one listed earlier has the smaller or equal
    score in the delayed set.  As each is pushed onto the head of
    waiting in that order, the earlier-due job is also dispatched
    earlier. *)
Theorem processDelayed_ascending (nowMs : Z) (st : Store) (i j : nat)
    (a b : string) :
  (i < j)%nat →
  (processDelayed nowMs st).1 !! i = Some a →
  (processDelayed nowMs st).1 !! j = Some b →
  ∃ sa sb, delayed st !! a = Some sa ∧ delayed st !! b = Some sb ∧ sa ≤ sb.
Proof.
  rewrite ScriptsSpec.processDelayed_unfold. cbn [fst]. unfold zrangebyscore.
  set (pairs := merge_sort zle _).
  intros Hij Hi Hj. rewrite list_lookup_fmap in Hi, Hj.
  destruct (pairs !! i) as [[ka sa]|] eqn:Ei; [|discriminate].
  destruct (pairs !! j) as [[kb sb]|] eqn:Ej; [|discriminate].
  simpl in Hi, Hj. injection Hi as <-. injection Hj as <-.
  exists sa, sb.
  split; [apply (due_pairs_in 0 nowMs (delayed st) (ka, sa));
          by eapply list_elem_of_lookup_2|].
  split; [apply (due_pairs_in 0 nowMs (delayed st) (kb, sb));
          by eapply list_elem_of_lookup_2|].
  assert (Hss : StronglySorted by_score pairs).
  { apply Sorted_StronglySorted; [apply _|].
    apply (Sorted_weaken zle); [|apply ScriptsSpec.zrangebyscore_sorted].
    intros x y [Hlt|[Heq _]]; unfold by_score; lia. }
  apply (StronglySorted_at _ _ Hss i j (ka, sa) (kb, sb) Hij Ei Ej).
Qed.

Definition three_delayed : Store :=
  mkStore [] [] {["b" := 7; "a" := 9; "c" := 2]} ∅ None.

Lemma processDelayed_ascending_witness :
  (0 < 2)%nat
  ∧ (processDelayed 10 three_delayed).1 !! 0%nat = Some "c"
  ∧ (processDelayed 10 three_delayed).1 !! 2%nat = Some "a"
  ∧ ∃ sa sb, delayed three_delayed !! "c" = Some sa
             ∧ delayed three_delayed !! "a" = Some sb ∧ sa ≤ sb.
Proof.
  assert (H : (0 < 2)%nat) by lia.
  exact (conj H (conj eq_refl (conj eq_refl
           (processDelayed_ascending 10 three_delayed 0 2 "c" "a" H
              eq_refl eq_refl)))).
Defined.

Lemma promote_loop_size (ids : list string) :
  ∀ st, NoDup ids →
    (∀ i, i ∈ ids → is_Some (delayed st !! i)) →
    (size (delayed (foldl promote_one st ids)) + length ids)%nat
    = size (delayed st).
Proof.
  induction ids as [|j ids IH]; intros st Hnd Hall; [simpl; lia|].
  apply NoDup_cons in Hnd as [Hj Hnd].
  assert (is_Some (delayed st !! j)) as [s Hs]
    by (apply Hall, elem_of_cons; by left).
  assert (Hpos : size (delayed st) ≠ 0%nat).
  { intros Hz. apply map_size_empty_inv in Hz. rewrite Hz in Hs.
    by rewrite lookup_empty in Hs. }
  assert (Heq : (size (delayed (foldl promote_one (promote_one st j) ids))
                 + length ids)%nat
                = size (delayed (promote_one st j))).
  { apply IH; [done|]. intros i Hi. simpl.
    rewrite lookup_delete_ne by (intros ->; done).
    apply Hall, elem_of_cons. by right. }
  simpl in Heq. rewrite map_size_delete_Some in Heq by (by exists s).
  simpl. lia.
Qed.

(** X11: promotion neither loses nor duplicates an id: an id is in
    waiting or delayed afterwards exactly when it was before, the
    waiting list grows by the number of promoted ids, and [count()] is
    unchanged. *)
Theorem processDelayed_conserves (nowMs : Z) (st : Store) :
  let ids := (processDelayed nowMs st).1 in
  let st' := (processDelayed nowMs st).2 in
  (∀ i, i ∈ waiting st' ∨ is_Some (delayed st' !! i)
        ↔ i ∈ waiting st ∨ is_Some (delayed st !! i))
  ∧ length (waiting st') = (length ids + length (waiting st))%nat
  ∧ (size (delayed st') + length ids)%nat = size (delayed st)
  ∧ ((Queue.count (Effects.mkWorld st' [])).1
     = (Queue.count (Effects.mkWorld st [])).1).
Proof.
  rewrite ScriptsSpec.processDelayed_unfold. cbn [fst snd].
  set (ids := zrangebyscore 0 nowMs (delayed st)).
  pose proof (ScriptsSpec.promote_loop_frame ids st) as (Ha & _ & _).
  assert (Hsize : (size (delayed (foldl promote_one st ids)) + length ids)%nat
                  = size (delayed st)).
  { apply promote_loop_size; [apply ScriptsSpec.NoDup_zrangebyscore|].
    intros i Hi. apply ScriptsSpec.elem_of_zrangebyscore in Hi as (s & Hs & _).
    by exists s. }
  assert (Hlen : length (waiting (foldl promote_one st ids))
                 = (length ids + length (waiting st))%nat).
  { rewrite ScriptsSpec.promote_loop_waiting, length_app, length_reverse.
    reflexivity. }
  split; [|split; [exact Hlen | split; [exact Hsize|]]].
  - intros i. rewrite ScriptsSpec.promote_loop_waiting,
      ScriptsSpec.promote_loop_delayed, elem_of_app, elem_of_reverse.
    destruct (decide (i ∈ ids)) as [Hin|Hnin].
    + apply ScriptsSpec.elem_of_zrangebyscore in Hin as Hs.
      destruct Hs as (s & Hs & _). rewrite Hs.
      split; [intros _; right; by exists s | intros _; left; by left].
    + split; [intros [[?|?]|?]; [contradiction | by left | by right]
             | intros [?|?]; [left; by right | by right]].
  - unfold Queue.count, Effects.read. cbn [fst Effects.store].
    rewrite Ha, Hlen. f_equal. lia.
Qed.

End ScriptsProps.

(** ** The backoff law across attempts *)

Module BackoffProps.
Import Types BackoffFn.

(** The delay the function works with: [backoff.delay || 1000]. *)
Definition base_delay (b : Backoff.t) : Z := or_num (Backoff.delay b) 1000.

(** X12: with an [exponential] backoff the first retry waits the base
    delay and every further attempt doubles the wait; with a [fixed]
    backoff every retry waits the base delay, whatever the attempt. *)
Theorem calculateBackoff_doubling (attempts : Z) (opts : JobOptions)
    (b : Backoff.t) :
  backoff opts = Some b →
  1 ≤ attempts →
  (Backoff.type b = "exponential" →
     calculateBackoff 1 opts = base_delay b
     ∧ calculateBackoff (attempts + 1) opts = 2 * calculateBackoff attempts opts)
  ∧ (Backoff.type b = "fixed" → calculateBackoff attempts opts = base_delay b).
Proof.
  intros Hb Hge. unfold calculateBackoff, base_delay. rewrite Hb. cbv zeta.
  split.
  - intros He. rewrite !decide_True by done.
    split; [simpl; lia|].
    replace (attempts + 1 - 1) with (Z.succ (attempts - 1)) by lia.
    rewrite Z.pow_succ_r by lia. lia.
  - intros Hf. rewrite decide_False by (rewrite Hf; discriminate).
    rewrite decide_True by done. reflexivity.
Qed.

Lemma calculateBackoff_doubling_witness :
  backoff (BackoffSpec.with_backoff "exponential" 10)
  = Some (Backoff.mk "exponential" 10)
  ∧ 1 ≤ 3
  ∧ calculateBackoff 1 (BackoffSpec.with_backoff "exponential" 10) = 10
  ∧ calculateBackoff 4 (BackoffSpec.with_backoff "exponential" 10)
    = 2 * calculateBackoff 3 (BackoffSpec.with_backoff "exponential" 10).
Proof.
  assert (H : 1 ≤ 3) by lia.
  destruct (calculateBackoff_doubling 3
              (BackoffSpec.with_backoff "exponential" 10)
              (Backoff.mk "exponential" 10) eq_refl H) as [He _].
  destruct (He eq_refl) as [H1 H2].
  exact (conj eq_refl (conj H (conj H1 H2))).
Defined.

(** The backoff is never negative when the configured delay is not:
    for every [attempts >= 1] and options whose [backoff.delay], if
    any, is [>= 0], [calculateBackoff] returns a value [>= 0]. *)
Lemma calculateBackoff_nonneg (attempts : Z) (opts : JobOptions) :
  1 ≤ attempts →
  (∀ b, backoff opts = Some b → 0 ≤ Backoff.delay b) →
  0 ≤ calculateBackoff attempts opts.
Proof.
  intros Hge Hpos. unfold calculateBackoff.
  destruct (backoff opts) as [b|]; [|lia]. cbv zeta.
  assert (Hd : 0 ≤ or_num (Backoff.delay b) 1000).
  { unfold or_num. destruct (truthy_num (Backoff.delay b)); [by apply Hpos|lia]. }
  destruct (decide (Backoff.type b = "exponential")).
  - apply Z.mul_nonneg_nonneg; [exact Hd|]. apply Z.pow_nonneg. lia.
  - destruct (decide (Backoff.type b = "fixed")); [exact Hd | lia].
Qed.

Lemma calculateBackoff_nonneg_witness :
  1 ≤ 2
  ∧ (∀ b, backoff (BackoffSpec.with_backoff "fixed" 0) = Some b
          → 0 ≤ Backoff.delay b)
  ∧ 0 ≤ calculateBackoff 2 (BackoffSpec.with_backoff "fixed" 0).
Proof.
  assert (H : 1 ≤ 2) by lia.
  assert (Hb : ∀ b, backoff (BackoffSpec.with_backoff "fixed" 0) = Some b
                    → 0 ≤ Backoff.delay b).
  { intros b [= <-]. simpl. lia. }
  exact (conj H (conj Hb
           (calculateBackoff_nonneg 2 (BackoffSpec.with_backoff "fixed" 0)
              H Hb))).
Defined.

End BackoffProps.

(** ** The worker: completion, failure, retries and control *)

Module WorkerProps.
Import Types Redis Effects Worker.

Lemma failJob_eq (now : Z) (jobId : string) (error : JsError) (w : World)
    (job0 : Job) :
  hget_data jobId (store w) = Some job0 →
  let job := failed_attempt job0 error in
  failJob now jobId error w
  = if shouldRetry job
    then (Resolve tt,
          mkWorld
            (exec (retry_tx now jobId (set_status Delayed job)) (store w))
            (log w ++ [Multi (retry_tx now jobId (set_status Delayed job));
                       Emit (EvFailed (set_status Delayed job) error);
                       Emit (EvRetrying (set_status Delayed job))]))
    else (Resolve tt,
          mkWorld
            (exec (terminal_tx jobId (set_status Failed job)) (store w))
            (log w ++ [Multi (terminal_tx jobId (set_status Failed job));
                       Emit (EvFailed (set_status Failed job) error)])).
Proof.
  intros Hj job. unfold failJob, bind, read. rewrite Hj. fold job.
  destruct (shouldRetry job);
    unfold multi_exec, emit, bind, act, write; simpl;
    rewrite <- !app_assoc; reflexivity.
Qed.

(** X13: [completeJob] sends one transaction and emits no event: it
    removes the id from active and, when [removeOnComplete] is truthy,
    deletes the hash; otherwise it writes the record with status
    [completed] and the handler's result as [returnValue], whether or
    not the hash was still there.  Waiting, delayed and the pause flag
    are untouched. *)
Theorem completeJob_spec (job : Job) (result : string) (w : World) :
  let job' := set_returnValue result (set_status Completed job) in
  let r := completeJob job result w in
  r.1 = Resolve tt
  ∧ (∃ tx, log r.2 = log w ++ [Multi tx] ∧ store r.2 = exec tx (store w))
  ∧ (id job ∉ active (store r.2))
  ∧ (if truthy_flag (removeOnComplete (options job))
     then jobs (store r.2) !! id job = None
     else hget_data (id job) (store r.2) = Some job'
          ∧ status job' = Completed
          ∧ returnValue job' = Some result
          ∧ attemptsMade job' = attemptsMade job)
  ∧ waiting (store r.2) = waiting (store w)
  ∧ delayed (store r.2) = delayed (store w)
  ∧ paused (store r.2) = paused (store w).
Proof.
  cbv zeta. unfold completeJob, multi_exec, bind, act, write.
  cbn [fst snd store log].
  change (options (set_returnValue result (set_status Completed job)))
    with (options job).
  change (id (set_returnValue result (set_status Completed job)))
    with (id job).
  split; [reflexivity|].
  split; [eexists; split; reflexivity|].
  destruct (truthy_flag (removeOnComplete (options job))); simpl.
  - split; [apply QueueSpec.lrem_all_not_elem|].
    split; [apply lookup_delete_eq | done].
  - split; [apply QueueSpec.lrem_all_not_elem|].
    split; [|done]. unfold hget_data, hset_data. simpl.
    rewrite lookup_insert_eq. done.
Qed.

(** X14: [failJob] on an id whose hash record is absent resolves
    without sending anything or emitting anything; in particular the
    failure of a job that [removeJob] took away while it was running
    is dropped silently. *)
Theorem failJob_absent (now : Z) (jobId : string) (error : JsError)
    (w : World) :
  (hget_data jobId (store w) = None →
     failJob now jobId error w = (Resolve tt, w))
  ∧ (∀ job, hget_data jobId (store w) = Some job →
       failJob now jobId error (Queue.removeJob jobId w).2
       = (Resolve tt, (Queue.removeJob jobId w).2)).
Proof.
  assert (Habs : ∀ w', hget_data jobId (store w') = None →
                       failJob now jobId error w' = (Resolve tt, w')).
  { intros w' Hn. unfold failJob, bind, read. rewrite Hn. reflexivity. }
  split; [apply Habs|]. intros job Hj. apply Habs.
  unfold Queue.removeJob, bind. rewrite (QueueSpec.getJob_present _ _ _ Hj).
  unfold multi_exec, emit, bind, act, write. cbn [fst snd store].
  rewrite QueueSpec.exec_removeJob_tx. unfold hget_data. simpl.
  rewrite lookup_delete_eq. reflexivity.
Qed.

Lemma failJob_absent_witness :
  hget_data "a" (store QueueSpec.one_job) = Some QueueSpec.sample_job
  ∧ hget_data "zz" (store QueueSpec.one_job) = None
  ∧ failJob 30 "zz" WorkerSpec.boom QueueSpec.one_job
    = (Resolve tt, QueueSpec.one_job)
  ∧ failJob 30 "a" WorkerSpec.boom (Queue.removeJob "a" QueueSpec.one_job).2
    = (Resolve tt, (Queue.removeJob "a" QueueSpec.one_job).2).
Proof.
  destruct (failJob_absent 30 "zz" WorkerSpec.boom QueueSpec.one_job)
    as [H1 _].
  destruct (failJob_absent 30 "a" WorkerSpec.boom QueueSpec.one_job)
    as [_ H2].
  exact (conj eq_refl (conj eq_refl
           (conj (H1 eq_refl) (H2 QueueSpec.sample_job eq_refl)))).
Defined.


(** *** Retrying until the attempts are used up *)

(** Successive failures of the same job, one [failJob] per clock
    reading in [nows]. *)
Fixpoint fail_times (nows : list Z) (jobId : string) (error : JsError)
    (w : World) : World :=
  match nows with
  | [] => w
  | now :: rest => fail_times rest jobId error (failJob now jobId error w).2
  end.

Definition is_failed (a : Action) : bool :=
  match a with Emit (EvFailed _ _) => true | _ => false end.

Definition is_retrying (a : Action) : bool :=
  match a with Emit (EvRetrying _) => true | _ => false end.

(** How many logged actions satisfy [p]. *)
Definition tally (p : Action → bool) (l : list Action) : Z :=
  Z.of_nat (length (filter (λ a, p a = true) l)).

Lemma tally_app (p : Action → bool) (l l' : list Action) :
  tally p (l ++ l') = tally p l + tally p l'.
Proof. unfold tally. rewrite filter_app, length_app. lia. Qed.

Definition trace_length (job : Job) : Z :=
  Z.of_nat (length (default [] (stackTrace job))).

Lemma failJob_step (now : Z) (jobId : string) (error : JsError) (w : World)
    (job0 : Job) (N : Z) :
  hget_data jobId (store w) = Some job0 →
  attempts (options job0) = Some N →
  1 ≤ N →
  truthy_flag (removeOnFail (options job0)) = false →
  let retry := attemptsMade job0 + 1 <? N in
  let final := set_status (if retry then Delayed else Failed)
                          (failed_attempt job0 error) in
  let w' := (failJob now jobId error w).2 in
  hget_data jobId (store w') = Some final
  ∧ tally is_failed (log w') = tally is_failed (log w) + 1
  ∧ tally is_retrying (log w')
    = tally is_retrying (log w) + (if retry then 1 else 0).
Proof.
  intros Hj HN Hge Hrm. cbv zeta. rewrite (failJob_eq _ _ _ _ _ Hj). cbv zeta.
  assert (Hs : shouldRetry (failed_attempt job0 error)
               = (attemptsMade job0 + 1 <? N)).
  { unfold shouldRetry. rewrite WorkerSpec.failed_attempt_attemptsMade.
    change (options (failed_attempt job0 error)) with (options job0).
    rewrite HN. simpl. rewrite BackoffSpec.or_num_nonzero by lia. reflexivity. }
  rewrite Hs. destruct (attemptsMade job0 + 1 <? N); cbn [snd store log].
  - split; [unfold retry_tx, hget_data; simpl; unfold hset_data;
            by rewrite lookup_insert_eq|].
    rewrite !tally_app. split; reflexivity.
  - unfold terminal_tx.
    change (options (set_status Failed (failed_attempt job0 error)))
      with (options job0).
    rewrite Hrm. split; [unfold hget_data; simpl; unfold hset_data;
                         by rewrite lookup_insert_eq|].
    rewrite !tally_app. split; [reflexivity|]. unfold tally. simpl. lia.
Qed.

Lemma trace_length_failed_attempt (job : Job) (error : JsError) :
  trace_length (failed_attempt job error) = trace_length job + 1.
Proof.
  unfold trace_length, failed_attempt. simpl. rewrite length_app. simpl. lia.
Qed.

Lemma fail_times_run (jobId : string) (error : JsError) (N : Z)
    (nows : list Z) :
  ∀ (w : World) (job0 : Job),
    hget_data jobId (store w) = Some job0 →
    attempts (options job0) = Some N →
    truthy_flag (removeOnFail (options job0)) = false →
    0 ≤ attemptsMade job0 →
    attemptsMade job0 + Z.of_nat (length nows) ≤ N →
    let k := Z.of_nat (length nows) in
    let w' := fail_times nows jobId error w in
    ∃ job,
      hget_data jobId (store w') = Some job
      ∧ attemptsMade job = attemptsMade job0 + k
      ∧ options job = options job0
      ∧ (0 < k → attemptsMade job0 + k < N → status job = Delayed)
      ∧ (0 < k → attemptsMade job0 + k = N → status job = Failed)
      ∧ trace_length job = trace_length job0 + k
      ∧ tally is_failed (log w') = tally is_failed (log w) + k
      ∧ (attemptsMade job0 + k < N →
           tally is_retrying (log w') = tally is_retrying (log w) + k)
      ∧ (0 < k → attemptsMade job0 + k = N →
           tally is_retrying (log w') = tally is_retrying (log w) + k - 1).
Proof.
  induction nows as [|now rest IH]; intros w job0 Hj HN Hrm Ha Hle.
  - cbv zeta. simpl. exists job0. repeat split; try lia; done.
  - cbv zeta. rewrite length_cons, Nat2Z.inj_succ in Hle |- *.
    assert (HN1 : 1 ≤ N) by lia.
    destruct (failJob_step now jobId error w job0 N Hj HN HN1 Hrm)
      as (Hg & Hf & Hr).
    cbn [fail_times].
    set (w1 := (failJob now jobId error w).2) in *.
    set (job1 := set_status
                   (if attemptsMade job0 + 1 <? N then Delayed else Failed)
                   (failed_attempt job0 error)) in *.
    assert (Ha1 : attemptsMade job1 = attemptsMade job0 + 1)
      by apply WorkerSpec.failed_attempt_attemptsMade.
    assert (Ho1 : options job1 = options job0) by reflexivity.
    assert (Ht1 : trace_length job1 = trace_length job0 + 1)
      by apply trace_length_failed_attempt.
    assert (Hst1 : status job1
                   = if attemptsMade job0 + 1 <? N then Delayed else Failed)
      by reflexivity.
    clearbody job1 w1.
    destruct rest as [|now2 rest'].
    + cbn [fail_times length]. exists job1.
      destruct (Z.ltb_spec (attemptsMade job0 + 1) N) as [Hlt|Hnlt].
      * split; [exact Hg|]. split; [lia|]. split; [exact Ho1|].
        split; [intros _ _; exact Hst1|]. split; [intros; lia|].
        split; [lia|]. split; [lia|]. split; [intros; lia | intros; lia].
      * split; [exact Hg|]. split; [lia|]. split; [exact Ho1|].
        split; [intros; lia|]. split; [intros _ _; exact Hst1|].
        split; [lia|]. split; [lia|]. split; [intros; lia | intros; lia].
    + assert (Hlt : attemptsMade job0 + 1 < N).
      { rewrite length_cons, Nat2Z.inj_succ in Hle. lia. }
      assert (HN' : attempts (options job1) = Some N) by (by rewrite Ho1).
      assert (Hrm' : truthy_flag (removeOnFail (options job1)) = false)
        by (by rewrite Ho1).
      destruct (IH w1 job1 Hg HN' Hrm' ltac:(lia) ltac:(lia))
        as (job & H1 & H2 & H3 & H4 & H5 & H6 & H7 & H8 & H9).
      destruct (Z.ltb_spec (attemptsMade job0 + 1) N) as [_|?]; [|lia].
      set (k' := Z.of_nat (length (now2 :: rest'))) in *.
      assert (Hk' : 0 < k').
      { subst k'. rewrite length_cons, Nat2Z.inj_succ. lia. }
      clearbody k'.
      exists job. split; [exact H1|]. split; [lia|].
      split; [by rewrite H3|].
      split; [intros _ ?; apply H4; lia|].
      split; [intros _ ?; apply H5; lia|].
      split; [lia|]. split; [lia|].
      split; [intros ?; rewrite H8 by lia; lia|].
      intros _ ?. rewrite H9 by lia. lia.
Qed.

(** X15: a job stored with [attemptsMade = 0], [attempts = N >= 1] and
    no [removeOnFail] that fails every time ends, after exactly N
    failures, in status [failed] with [attemptsMade = N] and N more
    entries in [stackTrace], having emitted [failed] N times and
    [retrying] N - 1 times; after fewer failures (at least one) it is
    [delayed] with [attemptsMade] the number of failures so far. *)
Theorem retry_exhaustion (jobId : string) (error : JsError) (N : Z)
    (nows : list Z) (w : World) (job0 : Job) :
  hget_data jobId (store w) = Some job0 →
  attempts (options job0) = Some N →
  truthy_flag (removeOnFail (options job0)) = false →
  attemptsMade job0 = 0 →
  0 < Z.of_nat (length nows) ≤ N →
  let k := Z.of_nat (length nows) in
  let w' := fail_times nows jobId error w in
  ∃ job,
    hget_data jobId (store w') = Some job
    ∧ attemptsMade job = k
    ∧ status job = (if k <? N then Delayed else Failed)
    ∧ trace_length job = trace_length job0 + k
    ∧ tally is_failed (log w') = tally is_failed (log w) + k
    ∧ tally is_retrying (log w')
      = tally is_retrying (log w) + (if k <? N then k else N - 1).
Proof.
  intros Hj HN Hrm Ha0 Hk. cbv zeta.
  destruct (fail_times_run jobId error N nows w job0 Hj HN Hrm
              ltac:(lia) ltac:(lia))
    as (job & H1 & H2 & H3 & H4 & H5 & H6 & H7 & H8 & H9).
  exists job. split; [exact H1|]. split; [lia|].
  destruct (Z.ltb_spec (Z.of_nat (length nows)) N) as [Hlt|Hge].
  - split; [apply H4; lia|]. split; [exact H6|]. split; [exact H7|].
    apply H8. lia.
  - split; [apply H5; lia|]. split; [exact H6|]. split; [exact H7|].
    rewrite H9 by lia. lia.
Qed.

Lemma retry_exhaustion_witness :
  (∃ job0,
      hget_data "a" (store (WorkerSpec.dispatched (WorkerSpec.with_attempts 2)))
      = Some job0
      ∧ attempts (options job0) = Some 2
      ∧ attemptsMade job0 = 0)
  ∧ 0 < Z.of_nat (length [30; 60]) ≤ 2
  ∧ ∃ job,
      hget_data "a"
        (store (fail_times [30; 60] "a" WorkerSpec.boom
                  (WorkerSpec.dispatched (WorkerSpec.with_attempts 2))))
      = Some job
      ∧ attemptsMade job = 2
      ∧ status job = Failed.
Proof.
  split; [eexists; repeat split; reflexivity|].
  assert (Hk : 0 < Z.of_nat (length [30; 60]) ≤ 2) by (simpl; lia).
  split; [exact Hk|].
  destruct (retry_exhaustion "a" WorkerSpec.boom 2 [30; 60]
              (WorkerSpec.dispatched (WorkerSpec.with_attempts 2)) _
              eq_refl eq_refl eq_refl eq_refl Hk)
    as (job & H1 & H2 & H3 & _).
  exists job. exact (conj H1 (conj H2 H3)).
Defined.

End WorkerProps.

(** ** Invariants of the key-space *)

Module Invariants.
Import Types Redis Effects.

(** No id is queued twice, and none is in the delayed set while it is
    in waiting or active. *)
Definition exclusive (st : Store) : Prop :=
  NoDup (waiting st ++ active st)
  ∧ ∀ i, i ∈ waiting st ++ active st → delayed st !! i = None.

(** Every id in waiting, active or delayed has its job record. *)
Definition backed (st : Store) : Prop :=
  ∀ i, i ∈ waiting st ∨ i ∈ active st ∨ is_Some (delayed st !! i) →
       is_Some (hget_data i st).

(** Every job record is stored under its own id. *)
Definition own_id (st : Store) : Prop :=
  ∀ i job, hget_data i st = Some job → id job = i.

Definition well_formed (st : Store) : Prop :=
  exclusive st ∧ backed st ∧ own_id st.

Lemma well_formed_empty : well_formed Redis.empty.
Proof.
  split; [split|split].
  - simpl. constructor.
  - intros i Hi. apply lookup_empty.
  - intros i [Hi|[Hi|Hi]]; simpl in Hi.
    + by apply elem_of_nil in Hi.
    + by apply elem_of_nil in Hi.
    + rewrite lookup_empty in Hi. by destruct Hi.
  - intros i job. unfold hget_data. simpl. rewrite lookup_empty. discriminate.
Qed.

Lemma elem_of_lrem_all (i x : string) (l : list string) :
  i ∈ lrem 0 x l ↔ i ≠ x ∧ i ∈ l.
Proof.
  unfold lrem. simpl. exact (list_elem_of_filter (λ y, y ≠ x) l i).
Qed.

Lemma lrem_all_app (x : string) (l k : list string) :
  lrem 0 x (l ++ k) = lrem 0 x l ++ lrem 0 x k.
Proof. unfold lrem. simpl. apply filter_app. Qed.

Lemma NoDup_lrem_all (x : string) (l : list string) :
  NoDup l → NoDup (lrem 0 x l).
Proof. unfold lrem. simpl. apply NoDup_filter. Qed.

Lemma hget_data_hset_data (i x : string) (j : Job) (h : gmap string Hash)
    (w a : list string) (d : gmap string Z) (p : option string) :
  hget_data i (mkStore w a d (hset_data x j h) p)
  = if decide (i = x) then Some j else hget_data i (mkStore w a d h p).
Proof.
  unfold hget_data, hset_data. simpl. destruct (decide (i = x)) as [->|Hne].
  - by rewrite lookup_insert_eq.
  - by rewrite lookup_insert_ne.
Qed.

Lemma hget_data_delete (i x : string) (h : gmap string Hash)
    (w a : list string) (d : gmap string Z) (p : option string) :
  hget_data i (mkStore w a d (delete x h) p)
  = if decide (i = x) then None else hget_data i (mkStore w a d h p).
Proof.
  unfold hget_data. simpl. destruct (decide (i = x)) as [->|Hne].
  - by rewrite lookup_delete_eq.
  - by rewrite lookup_delete_ne.
Qed.

Lemma hget_data_frame (i : string) (h : gmap string Hash)
    (w a w' a' : list string) (d d' : gmap string Z) (p p' : option string) :
  hget_data i (mkStore w a d h p) = hget_data i (mkStore w' a' d' h p').
Proof. reflexivity. Qed.


(** *** What each kind of update needs to keep the key-space well formed *)

Lemma wf_hash_write (x : string) (j : Job) (st : Store) :
  id j = x → well_formed st →
  well_formed (set_jobs (hset_data x j (jobs st)) st).
Proof.
  intros Hid (Hex & Hb & Ho). split; [exact Hex|]. split.
  - intros i Hi. unfold set_jobs. rewrite hget_data_hset_data.
    destruct (decide (i = x)); [by eexists|]. by apply Hb.
  - intros i job. unfold set_jobs. rewrite hget_data_hset_data.
    destruct (decide (i = x)) as [->|_]; [intros [= <-]; exact Hid|].
    apply Ho.
Qed.

Lemma wf_startedAt (x : string) (ts : Z) (st : Store) :
  well_formed st → well_formed (set_jobs (hset_startedAt x ts (jobs st)) st).
Proof.
  intros (Hex & Hb & Ho). split; [exact Hex|]. split.
  - intros i Hi. rewrite ScriptsSpec.hget_data_hset_startedAt. by apply Hb.
  - intros i job. rewrite ScriptsSpec.hget_data_hset_startedAt. apply Ho.
Qed.

Lemma wf_drop (k : ListKey) (x : string) (st : Store) :
  well_formed st → well_formed (set_list k (lrem 0 x (get_list k st)) st).
Proof.
  intros ((Hnd & Hdis) & Hb & Ho).
  assert (Hsub : ∀ i, i ∈ waiting (set_list k (lrem 0 x (get_list k st)) st)
                        ++ active (set_list k (lrem 0 x (get_list k st)) st)
                      → i ∈ waiting st ++ active st).
  { intros i. destruct k; simpl; rewrite !elem_of_app, elem_of_lrem_all; tauto. }
  split; [split|split].
  - apply NoDup_app in Hnd as (Hw & Hwa & Ha).
    destruct k; simpl; apply NoDup_app.
    + split; [by apply NoDup_lrem_all|]. split; [|done].
      intros i Hi. apply elem_of_lrem_all in Hi as [_ Hi]. by apply Hwa.
    + split; [done|]. split; [|by apply NoDup_lrem_all].
      intros i Hi Hi'. apply elem_of_lrem_all in Hi' as [_ Hi'].
      by apply (Hwa i).
  - intros i Hi. destruct k; apply Hdis, Hsub, Hi.
  - intros i Hi.
    assert (Hold : i ∈ waiting st ∨ i ∈ active st ∨ is_Some (delayed st !! i)).
    { destruct k; simpl in Hi; rewrite elem_of_lrem_all in Hi; tauto. }
    destruct k; apply (Hb i Hold).
  - intros i job. destruct k; apply Ho.
Qed.

Lemma wf_hash_delete (x : string) (st : Store) :
  x ∉ waiting st → x ∉ active st → delayed st !! x = None →
  well_formed st → well_formed (set_jobs (delete x (jobs st)) st).
Proof.
  intros Hw Ha Hd (Hex & Hb & Ho). split; [exact Hex|]. split.
  - intros i Hi. unfold set_jobs. rewrite hget_data_delete.
    destruct (decide (i = x)) as [->|_]; [|by apply Hb].
    simpl in Hi. rewrite Hd in Hi.
    destruct Hi as [?|[?|[? ?]]]; [contradiction | contradiction | discriminate].
  - intros i job. unfold set_jobs. rewrite hget_data_delete.
    destruct (decide (i = x)); [discriminate | apply Ho].
Qed.

Lemma wf_zadd (x : string) (s : Z) (st : Store) :
  x ∉ waiting st → x ∉ active st → is_Some (hget_data x st) →
  well_formed st → well_formed (set_delayed (<[x := s]> (delayed st)) st).
Proof.
  intros Hw Ha Hh ((Hnd & Hdis) & Hb & Ho). split; [split|split].
  - exact Hnd.
  - intros i Hi. simpl in *. rewrite lookup_insert_ne; [by apply Hdis|].
    intros ->. apply elem_of_app in Hi as [?|?]; contradiction.
  - intros i Hi. simpl in Hi. destruct (decide (i = x)) as [->|Hne];
      [exact Hh|]. rewrite lookup_insert_ne in Hi by done. by apply Hb.
  - exact Ho.
Qed.

Lemma wf_zrem (x : string) (st : Store) :
  well_formed st → well_formed (set_delayed (delete x (delayed st)) st).
Proof.
  intros ((Hnd & Hdis) & Hb & Ho). split; [split|split].
  - exact Hnd.
  - intros i Hi. simpl in *. destruct (decide (x = i)) as [->|Hne].
    + apply lookup_delete_eq.
    + rewrite lookup_delete_ne by done. by apply Hdis.
  - intros i Hi. simpl in Hi. apply Hb.
    destruct Hi as [?|[?|Hi]]; [tauto | tauto |].
    right; right. destruct (decide (x = i)) as [->|Hne].
    + rewrite lookup_delete_eq in Hi. by destruct Hi.
    + by rewrite lookup_delete_ne in Hi.
  - exact Ho.
Qed.

Lemma wf_lpush (k : ListKey) (x : string) (st : Store) :
  x ∉ waiting st → x ∉ active st → delayed st !! x = None →
  is_Some (hget_data x st) →
  well_formed st → well_formed (set_list k (x :: get_list k st) st).
Proof.
  intros Hw Ha Hd Hh ((Hnd & Hdis) & Hb & Ho).
  assert (Hmem : ∀ i, i ∈ waiting (set_list k (x :: get_list k st) st)
                        ++ active (set_list k (x :: get_list k st) st)
                      ↔ i = x ∨ i ∈ waiting st ++ active st).
  { intros i. destruct k; simpl; rewrite ?elem_of_app, ?elem_of_cons,
      ?elem_of_app; tauto. }
  split; [split|split].
  - destruct k; simpl.
    + apply NoDup_cons. split; [|exact Hnd].
      rewrite elem_of_app. tauto.
    + apply NoDup_app in Hnd as (Hnw & Hwa & Hna). apply NoDup_app.
      split; [done|]. split.
      * intros i Hi [->|Hi']%elem_of_cons; [contradiction | by apply (Hwa i)].
      * apply NoDup_cons. by split.
  - intros i Hi. apply Hmem in Hi as [->|Hi];
      [destruct k; exact Hd | destruct k; by apply Hdis].
  - intros i Hi.
    assert (Hcase : i = x ∨ i ∈ waiting st ∨ i ∈ active st
                    ∨ is_Some (delayed st !! i)).
    { destruct k; simpl in Hi; rewrite elem_of_cons in Hi; tauto. }
    destruct Hcase as [->|Hold]; [|destruct k; by apply Hb].
    destruct k; exact Hh.
  - intros i job. destruct k; apply Ho.
Qed.


(** *** The operations keep the key-space well formed *)

Lemma exclusive_active_elsewhere (x : string) (st : Store) :
  exclusive st → x ∈ active st →
  (x ∉ waiting st) ∧ delayed st !! x = None.
Proof.
  intros [Hnd Hdis] Ha. split.
  - apply NoDup_app in Hnd as (_ & Hwa & _). intros Hw. by apply (Hwa x).
  - apply Hdis, elem_of_app. by right.
Qed.

Lemma wf_add_tx (q : Queue.t) (uuid : string) (now now' : Z)
    (name data : string) (options : JobOptions) (st : Store) :
  uuid ∉ waiting st → uuid ∉ active st → delayed st !! uuid = None →
  well_formed st →
  well_formed
    (exec (Queue.add_tx (Queue.new_job q uuid now name data options)
                        now' options) st).
Proof.
  intros Hw Ha Hd Hwf. rewrite QueueProps.add_store.
  set (job := Queue.new_job q uuid now name data options).
  pose proof (wf_hash_write uuid job st eq_refl Hwf) as Hwf1.
  assert (Hh : is_Some (hget_data uuid
                          (set_jobs (hset_data uuid job (jobs st)) st))).
  { unfold set_jobs. rewrite hget_data_hset_data.
    rewrite decide_True by done. by eexists. }
  destruct (truthy_opt_num (delay options)).
  - exact (wf_zadd uuid _ (set_jobs (hset_data uuid job (jobs st)) st)
             Hw Ha Hh Hwf1).
  - exact (wf_lpush KWaiting uuid (set_jobs (hset_data uuid job (jobs st)) st)
             Hw Ha Hd Hh Hwf1).
Qed.

(** X16: [add] of an id that is in none of waiting, active and delayed
    keeps the key-space well formed: no id queued twice or in two
    collections, every queued id with its record, every record under
    its own id. *)
Theorem add_keeps_well_formed (q : Queue.t) (uuid : string) (now now' : Z)
    (name data : string) (options : JobOptions) (w : World) :
  Queue.isReady q = true →
  uuid ∉ waiting (store w) → uuid ∉ active (store w) →
  delayed (store w) !! uuid = None →
  well_formed (store w) →
  well_formed (store (Queue.add q uuid now now' name data options w).2).
Proof.
  intros Hready Hw Ha Hd Hwf.
  rewrite (QueueProps.add_ready_eq _ _ _ _ _ _ _ _ Hready). cbn [snd store].
  by apply wf_add_tx.
Qed.

Lemma add_keeps_well_formed_witness :
  Queue.isReady (QueueSpec.ready_queue noOptions) = true
  ∧ well_formed Redis.empty
  ∧ well_formed
      (store (Queue.add (QueueSpec.ready_queue noOptions) "id1" 10 12 "t" "{}"
                        noOptions QueueSpec.fresh_world).2).
Proof.
  assert (Hn : "id1" ∉ ([] : list string)) by apply not_elem_of_nil.
  exact (conj eq_refl (conj well_formed_empty
           (add_keeps_well_formed (QueueSpec.ready_queue noOptions) "id1" 10 12
              "t" "{}" noOptions QueueSpec.fresh_world eq_refl Hn Hn
              (lookup_empty _) well_formed_empty))).
Defined.

Lemma wf_promote_loop (ids : list string) :
  ∀ st, NoDup ids →
    (∀ i, i ∈ ids → is_Some (delayed st !! i)) →
    well_formed st → well_formed (foldl Scripts.promote_one st ids).
Proof.
  induction ids as [|j ids IH]; intros st Hnd Hall Hwf; [exact Hwf|].
  apply NoDup_cons in Hnd as [Hj Hnd]. simpl. apply IH; [exact Hnd| |].
  - intros i Hi. simpl. rewrite lookup_delete_ne by (intros ->; done).
    apply Hall, elem_of_cons. by right.
  - assert (Hsj : is_Some (delayed st !! j))
      by (apply Hall, elem_of_cons; by left).
    destruct Hwf as ((Hnd' & Hdis) & Hb & Ho).
    assert (Hjw : j ∉ waiting st).
    { intros Hin. rewrite (Hdis j) in Hsj by (apply elem_of_app; by left).
      by destruct Hsj. }
    assert (Hja : j ∉ active st).
    { intros Hin. rewrite (Hdis j) in Hsj by (apply elem_of_app; by right).
      by destruct Hsj. }
    assert (Hh : is_Some (hget_data j st)) by (apply Hb; tauto).
    apply (wf_lpush KWaiting j (set_delayed (delete j (delayed st)) st)
             Hjw Hja (lookup_delete_eq _ _) Hh).
    apply wf_zrem. by repeat split.
Qed.

Lemma wf_moveToActive (ts : Z) (st : Store) :
  well_formed st → well_formed (Scripts.moveToActive ts st).2.
Proof.
  intros Hwf.
  destruct (ScriptsProps.list_nil_or_snoc (waiting st))
    as [Hw|(rest & x & Hw)].
  - by rewrite (ScriptsProps.moveToActive_empty _ _ Hw).
  - rewrite (ScriptsProps.moveToActive_snoc _ _ _ _ Hw). cbn [snd].
    pose proof Hwf as ((Hnd & Hdis) & Hb & _).
    assert (Hxw : x ∈ waiting st)
      by (rewrite Hw; apply elem_of_app; right; by apply list_elem_of_singleton).
    assert (Hxr : x ∉ rest).
    { rewrite Hw in Hnd. apply NoDup_app in Hnd as (Hnd & _ & _).
      apply NoDup_app in Hnd as (_ & Hrx & _). intros Hin.
      apply (Hrx x Hin). by apply list_elem_of_singleton. }
    assert (Hxa : x ∉ active st).
    { apply NoDup_app in Hnd as (_ & Hwa & _). by apply Hwa. }
    assert (Hrest : lrem 0 x (waiting st) = rest).
    { rewrite Hw, lrem_all_app, (QueueProps.lrem_all_fresh _ _ Hxr).
      rewrite QueueProps.lrem_all_head. apply app_nil_r. }
    pose proof (wf_drop KWaiting x st Hwf) as Hwf1.
    simpl in Hwf1. rewrite Hrest in Hwf1.
    pose proof (wf_lpush KActive x
                  (mkStore rest (active st) (delayed st) (jobs st)
                           (paused st))
                  Hxr Hxa
                  (Hdis x ltac:(apply elem_of_app; by left))
                  (Hb x ltac:(by left)) Hwf1) as Hwf2.
    exact (wf_startedAt x ts _ Hwf2).
Qed.

Lemma wf_processDelayed (ts : Z) (st : Store) :
  well_formed st → well_formed (Scripts.processDelayed ts st).2.
Proof.
  intros Hwf. rewrite ScriptsSpec.processDelayed_unfold. cbn [snd].
  apply wf_promote_loop; [apply ScriptsSpec.NoDup_zrangebyscore | | exact Hwf].
  intros i Hi. apply ScriptsSpec.elem_of_zrangebyscore in Hi as (s & Hs & _).
  by exists s.
Qed.



Lemma wf_removeJob_tx (jobId : string) (st : Store) :
  well_formed st → well_formed (exec (Queue.removeJob_tx jobId) st).
Proof.
  intros Hwf. rewrite QueueSpec.exec_removeJob_tx.
  pose proof (wf_zrem jobId _
                (wf_drop KActive jobId _
                   (wf_drop KWaiting jobId _ Hwf))) as Hwf3.
  apply (wf_hash_delete jobId _) in Hwf3; [exact Hwf3 | | |]; simpl.
  - apply QueueSpec.lrem_all_not_elem.
  - apply QueueSpec.lrem_all_not_elem.
  - apply lookup_delete_eq.
Qed.

Lemma removeJob_store (jobId : string) (w : World) :
  store (Queue.removeJob jobId w).2
  = match hget_data jobId (store w) with
    | Some _ => exec (Queue.removeJob_tx jobId) (store w)
    | None => store w
    end.
Proof.
  destruct (hget_data jobId (store w)) as [job|] eqn:Hj.
  - unfold Queue.removeJob, bind. by rewrite (QueueSpec.getJob_present _ _ _ Hj).
  - unfold Queue.removeJob, bind. by rewrite (QueueSpec.getJob_absent _ _ Hj).
Qed.



Lemma wf_failJob (now : Z) (jobId : string) (error : JsError) (w : World) :
  well_formed (store w) →
  jobId ∉ waiting (store w) →
  delayed (store w) !! jobId = None →
  well_formed (store (Worker.failJob now jobId error w).2).
Proof.
  intros Hwf Hw Hd. destruct (hget_data jobId (store w)) as [job0|] eqn:Hj.
  - assert (Hid : id job0 = jobId) by (destruct Hwf as (_ & _ & Ho); by apply Ho).
    rewrite (WorkerProps.failJob_eq _ _ _ _ _ Hj). cbv zeta.
    set (st := store w) in *.
    destruct (Worker.shouldRetry (Worker.failed_attempt job0 error));
      cbn [snd store].
    + unfold Worker.retry_tx.
      change (id (set_status Delayed (Worker.failed_attempt job0 error)))
        with (id job0).
      rewrite Hid.
      set (job' := set_status Delayed (Worker.failed_attempt job0 error)).
      set (score := now + _).
      pose (st2 := set_list KActive (lrem 0 jobId (active st))
                            (set_jobs (hset_data jobId job' (jobs st)) st)).
      assert (Hwf2 : well_formed st2)
        by exact (wf_drop KActive jobId _
                    (wf_hash_write jobId job' st Hid Hwf)).
      refine (wf_zadd jobId score st2 Hw _ _ Hwf2).
      * apply QueueSpec.lrem_all_not_elem.
      * subst st2. simpl. rewrite hget_data_hset_data, decide_True by done.
        by eexists.
    + unfold Worker.terminal_tx.
      change (id (set_status Failed (Worker.failed_attempt job0 error)))
        with (id job0).
      change (options (set_status Failed (Worker.failed_attempt job0 error)))
        with (options job0).
      rewrite Hid.
      pose (st1 := set_list KActive (lrem 0 jobId (active st)) st).
      assert (Hwf1 : well_formed st1) by exact (wf_drop KActive jobId st Hwf).
      destruct (truthy_flag (removeOnFail (options job0))).
      * refine (wf_hash_delete jobId st1 Hw _ Hd Hwf1).
        apply QueueSpec.lrem_all_not_elem.
      * exact (wf_hash_write jobId
                 (set_status Failed (Worker.failed_attempt job0 error))
                 st1 Hid Hwf1).
  - unfold Worker.failJob, bind, read. by rewrite Hj.
Qed.

(** X19: [failJob] of a job whose id is in active keeps the key-space
    well formed, on the retry path (the id moves to delayed), on the
    terminal path with or without [removeOnFail], and when the record
    is gone; afterwards the id is no longer in active. *)
Theorem failJob_keeps_well_formed (now : Z) (jobId : string)
    (error : JsError) (w : World) :
  well_formed (store w) →
  jobId ∈ active (store w) →
  well_formed (store (Worker.failJob now jobId error w).2)
  ∧ (is_Some (hget_data jobId (store w)) →
       jobId ∉ active (store (Worker.failJob now jobId error w).2)).
Proof.
  intros Hwf Ha.
  destruct (exclusive_active_elsewhere jobId (store w) (proj1 Hwf) Ha)
    as [Hw Hd].
  split; [by apply wf_failJob|].
  intros [job0 Hj].
  assert (Hid : id job0 = jobId) by (destruct Hwf as (_ & _ & Ho); by apply Ho).
  rewrite (WorkerProps.failJob_eq _ _ _ _ _ Hj). cbv zeta.
  destruct (Worker.shouldRetry (Worker.failed_attempt job0 error));
    cbn [snd store].
  - unfold Worker.retry_tx.
    change (id (set_status Delayed (Worker.failed_attempt job0 error)))
      with (id job0).
    rewrite Hid. simpl. apply QueueSpec.lrem_all_not_elem.
  - unfold Worker.terminal_tx.
    change (id (set_status Failed (Worker.failed_attempt job0 error)))
      with (id job0).
    rewrite Hid.
    destruct (truthy_flag _); simpl; apply QueueSpec.lrem_all_not_elem.
Qed.

Lemma wf_completeJob (job : Job) (result : string) (w : World) :
  well_formed (store w) →
  id job ∉ waiting (store w) →
  delayed (store w) !! id job = None →
  well_formed (store (Worker.completeJob job result w).2).
Proof.
  intros Hwf Hw Hd. unfold Worker.completeJob, multi_exec, bind, act, write.
  cbn [fst snd store].
  change (options (set_returnValue result (set_status Completed job)))
    with (options job).
  change (id (set_returnValue result (set_status Completed job)))
    with (id job).
  pose (st1 := set_list KActive (lrem 0 (id job) (active (store w))) (store w)).
  assert (Hwf1 : well_formed st1)
    by exact (wf_drop KActive (id job) (store w) Hwf).
  destruct (truthy_flag (removeOnComplete (options job))).
  - refine (wf_hash_delete (id job) st1 Hw _ Hd Hwf1).
    apply QueueSpec.lrem_all_not_elem.
  - exact (wf_hash_write (id job)
             (set_returnValue result (set_status Completed job))
             st1 eq_refl Hwf1).
Qed.

(** X20: [completeJob] of a job whose id is in active keeps the
    key-space well formed, with or without [removeOnComplete], and
    leaves the id in none of waiting, active and delayed. *)
Theorem completeJob_keeps_well_formed (job : Job) (result : string)
    (w : World) :
  well_formed (store w) →
  id job ∈ active (store w) →
  let st' := store (Worker.completeJob job result w).2 in
  well_formed st'
  ∧ (id job ∉ waiting st') ∧ (id job ∉ active st')
  ∧ delayed st' !! id job = None.
Proof.
  intros Hwf Ha. cbv zeta.
  destruct (exclusive_active_elsewhere (id job) (store w) (proj1 Hwf) Ha)
    as [Hw Hd].
  split; [by apply wf_completeJob|].
  unfold Worker.completeJob, multi_exec, bind, act, write. cbn [fst snd store].
  change (id (set_returnValue result (set_status Completed job)))
    with (id job).
  destruct (truthy_flag _); simpl;
    (split; [exact Hw|]; split; [apply QueueSpec.lrem_all_not_elem | exact Hd]).
Qed.

(** A key-space with job "a" in active and its record. *)
Definition one_active : World :=
  mkWorld
    (mkStore [] ["a"] ∅
             {["a" := mkHash (Some QueueSpec.sample_job) (Some 0)]} None)
    [].

Lemma well_formed_one_active : well_formed (store one_active).
Proof.
  change (store one_active)
    with (Scripts.moveToActive 0
            (exec (Queue.add_tx
                     (Queue.new_job (QueueSpec.ready_queue noOptions) "a" 0
                                    "t" "{}" noOptions)
                     0 noOptions)
                  Redis.empty)).2.
  apply wf_moveToActive.
  apply (wf_add_tx (QueueSpec.ready_queue noOptions) "a" 0 0 "t" "{}" noOptions
           Redis.empty (not_elem_of_nil _) (not_elem_of_nil _) (lookup_empty _)
           well_formed_empty).
Qed.

Lemma a_in_active : "a" ∈ active (store one_active).
Proof. apply list_elem_of_singleton. reflexivity. Qed.

Lemma failJob_keeps_well_formed_witness :
  well_formed (store one_active)
  ∧ ("a" ∈ active (store one_active))
  ∧ well_formed (store (Worker.failJob 30 "a" WorkerSpec.boom one_active).2).
Proof.
  exact (conj well_formed_one_active (conj a_in_active
           (proj1 (failJob_keeps_well_formed 30 "a" WorkerSpec.boom one_active
                     well_formed_one_active a_in_active)))).
Defined.

Lemma completeJob_keeps_well_formed_witness :
  well_formed (store one_active)
  ∧ (id QueueSpec.sample_job ∈ active (store one_active))
  ∧ well_formed
      (store (Worker.completeJob QueueSpec.sample_job "ok" one_active).2).
Proof.
  exact (conj well_formed_one_active (conj a_in_active
           (proj1 (completeJob_keeps_well_formed QueueSpec.sample_job "ok"
                     one_active well_formed_one_active a_in_active)))).
Defined.

(** *** Every key-space the operations can produce *)

(** The key-spaces reached from the empty one by the producer's
    methods, the two scripts and the worker's completion and failure
    paths; [add] draws an id that is in no collection, and a job is
    completed or failed while its id is neither waiting nor delayed
    (it is in active, or was removed while it ran). *)
Inductive reachable : Store → Prop :=
| reach_empty : reachable Redis.empty
| reach_add st l q uuid now now' name data options :
    reachable st →
    Queue.isReady q = true →
    uuid ∉ waiting st → uuid ∉ active st → delayed st !! uuid = None →
    reachable (store (Queue.add q uuid now now' name data options
                                (mkWorld st l)).2)
| reach_removeJob st l jobId :
    reachable st →
    reachable (store (Queue.removeJob jobId (mkWorld st l)).2)
| reach_pause st l :
    reachable st → reachable (store (Queue.pause (mkWorld st l)).2)
| reach_resume st l :
    reachable st → reachable (store (Queue.resume (mkWorld st l)).2)
| reach_moveToActive st ts :
    reachable st → reachable (Scripts.moveToActive ts st).2
| reach_processDelayed st ts :
    reachable st → reachable (Scripts.processDelayed ts st).2
| reach_failJob st l now jobId error :
    reachable st →
    jobId ∉ waiting st → delayed st !! jobId = None →
    reachable (store (Worker.failJob now jobId error (mkWorld st l)).2)
| reach_completeJob st l job result :
    reachable st →
    id job ∉ waiting st → delayed st !! id job = None →
    reachable (store (Worker.completeJob job result (mkWorld st l)).2).

(** X21: every key-space reachable from the empty one is well formed:
    no id is queued twice or sits in two of waiting, active and
    delayed; every queued id has its job record; every record is
    stored under its own id. *)
Theorem reachable_well_formed (st : Store) : reachable st → well_formed st.
Proof.
  induction 1 as [ | st l q uuid now now' name data options _ IH Hr Hw Ha Hd
                   | st l jobId _ IH | st l _ IH | st l _ IH
                   | st ts _ IH | st ts _ IH
                   | st l now jobId error _ IH Hw Hd
                   | st l job result _ IH Hw Hd ].
  - exact well_formed_empty.
  - rewrite (QueueProps.add_ready_eq _ _ _ _ _ _ _ _ Hr). cbn [snd store].
    by apply wf_add_tx.
  - rewrite removeJob_store. cbn [store].
    destruct (hget_data jobId st); [by apply wf_removeJob_tx | exact IH].
  - exact IH.
  - exact IH.
  - by apply wf_moveToActive.
  - by apply wf_processDelayed.
  - by apply wf_failJob.
  - by apply wf_completeJob.
Qed.

Lemma reachable_well_formed_witness :
  reachable (Scripts.moveToActive 20
               (store (Queue.add (QueueSpec.ready_queue noOptions) "a" 10 10
                                 "t" "{}" noOptions QueueSpec.fresh_world).2)).2
  ∧ well_formed
      (Scripts.moveToActive 20
         (store (Queue.add (QueueSpec.ready_queue noOptions) "a" 10 10
                           "t" "{}" noOptions QueueSpec.fresh_world).2)).2.
Proof.
  assert (Hr : reachable
                 (Scripts.moveToActive 20
                    (store (Queue.add (QueueSpec.ready_queue noOptions) "a"
                                      10 10 "t" "{}" noOptions
                                      QueueSpec.fresh_world).2)).2).
  { apply reach_moveToActive.
    apply (reach_add Redis.empty [] (QueueSpec.ready_queue noOptions) "a"
             10 10 "t" "{}" noOptions reach_empty eq_refl
             (not_elem_of_nil _) (not_elem_of_nil _) (lookup_empty _)). }
  exact (conj Hr (reachable_well_formed _ Hr)).
Defined.


(** *** The stored status *)

(** No stored record carries the status [active]. *)
Definition never_active (st : Store) : Prop :=
  ∀ i job, hget_data i st = Some job → status job ≠ Active.

Lemma never_active_step (st st' : Store) :
  never_active st →
  (∀ i job, hget_data i st' = Some job →
            hget_data i st = Some job ∨ status job ≠ Active) →
  never_active st'.
Proof.
  intros Hna Hstep i job Hj. destruct (Hstep i job Hj) as [Hold|Hs];
    [by apply (Hna i) | exact Hs].
Qed.

Lemma hget_after_write (i x : string) (j : Job) (st st' : Store) :
  jobs st' = hset_data x j (jobs st) →
  hget_data i st' = if decide (i = x) then Some j else hget_data i st.
Proof.
  intros Hj. unfold hget_data. rewrite Hj. unfold hset_data.
  destruct (decide (i = x)) as [->|Hne].
  - by rewrite lookup_insert_eq.
  - by rewrite lookup_insert_ne.
Qed.

Lemma hget_after_delete (i x : string) (st st' : Store) :
  jobs st' = delete x (jobs st) →
  hget_data i st' = if decide (i = x) then None else hget_data i st.
Proof.
  intros Hj. unfold hget_data. rewrite Hj.
  destruct (decide (i = x)) as [->|Hne].
  - by rewrite lookup_delete_eq.
  - by rewrite lookup_delete_ne.
Qed.

(** X22: in every key-space reachable from the empty one no stored
    record has the status [active]: the worker sets that status only
    on the copy it hands to the handler, so [getJob] never reports a
    job as active, not even while its handler runs. *)
Theorem reachable_never_active (st : Store) :
  reachable st →
  never_active st
  ∧ ∀ jobId job l,
      (Queue.getJob jobId (mkWorld st l)).1 = Resolve (Some job) →
      status job ≠ Active.
Proof.
  intros Hr.
  assert (Hna : never_active st).
  { induction Hr as [ | st l q uuid now now' name data options _ IH Hr Hw Ha Hd
                      | st l jobId _ IH | st l _ IH | st l _ IH
                      | st ts _ IH | st ts _ IH
                      | st l now jobId error _ IH Hw Hd
                      | st l job result _ IH Hw Hd ].
    - intros i job. unfold hget_data. simpl. rewrite lookup_empty. discriminate.
    - rewrite (QueueProps.add_ready_eq _ _ _ _ _ _ _ _ Hr). cbn [snd store].
      rewrite QueueProps.add_store. apply (never_active_step st _ IH).
      intros i job.
      destruct (truthy_opt_num (delay options)) eqn:E;
        rewrite hget_data_hset_data;
        (destruct (decide (i = uuid)); [|by left]);
        intros [= <-]; right; unfold Queue.new_job; simpl; rewrite E;
        discriminate.
    - rewrite removeJob_store. cbn [store].
      destruct (hget_data jobId st); [|exact IH].
      rewrite QueueSpec.exec_removeJob_tx. apply (never_active_step st _ IH).
      intros i job. rewrite hget_data_delete.
      destruct (decide (i = jobId)); [discriminate | by left].
    - exact IH.
    - exact IH.
    - apply (never_active_step st _ IH). intros i job Hj. left.
      destruct (ScriptsProps.list_nil_or_snoc (waiting st))
        as [Hw|(rest & x & Hw)].
      + by rewrite (ScriptsProps.moveToActive_empty _ _ Hw) in Hj.
      + rewrite (ScriptsProps.moveToActive_snoc _ _ _ _ Hw) in Hj.
        cbn [snd] in Hj.
        by rewrite <- (ScriptsSpec.hget_data_hset_startedAt i x ts st).
    - apply (never_active_step st _ IH). intros i job Hj. left.
      rewrite ScriptsSpec.processDelayed_unfold in Hj. cbn [snd] in Hj.
      unfold hget_data in *.
      destruct (ScriptsSpec.promote_loop_frame
                  (zrangebyscore 0 ts (delayed st)) st) as (_ & Hjobs & _).
      by rewrite Hjobs in Hj.
    - destruct (hget_data jobId st) as [job0|] eqn:Hj.
      + rewrite (WorkerProps.failJob_eq now jobId error (mkWorld st l) job0 Hj).
        cbv zeta. apply (never_active_step st _ IH). intros i job.
        destruct (Worker.shouldRetry (Worker.failed_attempt job0 error));
          cbn [snd store].
        * rewrite (hget_after_write i jobId
                     (set_status Delayed (Worker.failed_attempt job0 error))
                     st) by reflexivity.
          destruct (decide (i = jobId)); [|by left].
          intros [= <-]. by right.
        * unfold Worker.terminal_tx.
          destruct (truthy_flag
                      (removeOnFail
                         (options (set_status Failed
                                     (Worker.failed_attempt job0 error))))).
          -- rewrite (hget_after_delete i jobId st) by reflexivity.
             destruct (decide (i = jobId)); [discriminate | by left].
          -- rewrite (hget_after_write i jobId
                        (set_status Failed (Worker.failed_attempt job0 error))
                        st) by reflexivity.
             destruct (decide (i = jobId)); [|by left].
             intros [= <-]. by right.
      + unfold Worker.failJob, bind, read. cbn [store]. by rewrite Hj.
    - unfold Worker.completeJob, multi_exec, bind, act, write.
      cbn [fst snd store]. apply (never_active_step st _ IH). intros i j.
      destruct (truthy_flag
                  (removeOnComplete
                     (options (set_returnValue result
                                 (set_status Completed job))))).
      + rewrite (hget_after_delete i (id job) st) by reflexivity.
        destruct (decide (i = id job)); [discriminate | by left].
      + rewrite (hget_after_write i (id job)
                   (set_returnValue result (set_status Completed job)) st)
          by reflexivity.
        destruct (decide (i = id job)); [|by left].
        intros [= <-]. by right. }
  split; [exact Hna|].
  intros jobId job l. unfold Queue.getJob, bind, read. cbn [store].
  destruct (hget_data jobId st) as [j|] eqn:Hj; simpl; [|discriminate].
  intros [= <-]. by apply (Hna jobId).
Qed.

Lemma reachable_never_active_witness :
  reachable (Scripts.moveToActive 20
               (store (Queue.add (QueueSpec.ready_queue noOptions) "a" 10 10
                                 "t" "{}" noOptions QueueSpec.fresh_world).2)).2
  ∧ never_active
      (Scripts.moveToActive 20
         (store (Queue.add (QueueSpec.ready_queue noOptions) "a" 10 10
                           "t" "{}" noOptions QueueSpec.fresh_world).2)).2.
Proof.
  assert (Hr : reachable
                 (Scripts.moveToActive 20
                    (store (Queue.add (QueueSpec.ready_queue noOptions) "a"
                                      10 10 "t" "{}" noOptions
                                      QueueSpec.fresh_world).2)).2).
  { apply reach_moveToActive.
    apply (reach_add Redis.empty [] (QueueSpec.ready_queue noOptions) "a"
             10 10 "t" "{}" noOptions reach_empty eq_refl
             (not_elem_of_nil _) (not_elem_of_nil _) (lookup_empty _)). }
  exact (conj Hr (proj1 (reachable_never_active _ Hr))).
Defined.

End Invariants.

(** ** A job from enqueue to its end *)

Module LifecycleProps.
Import Types Redis Effects.

(** X23: a retry is never scheduled before the failure: when the
    configured backoff delay is not negative, the retry path of
    [failJob] puts the record's id into delayed with a score of
    [now + backoff >= now]. *)
Theorem retry_not_before_now (now : Z) (jobId : string) (error : JsError)
    (w : World) (job0 : Job) :
  hget_data jobId (store w) = Some job0 →
  0 ≤ attemptsMade job0 →
  Worker.shouldRetry (Worker.failed_attempt job0 error) = true →
  (∀ b, backoff (options job0) = Some b → 0 ≤ Backoff.delay b) →
  ∃ score,
    delayed (store (Worker.failJob now jobId error w).2) !! id job0 = Some score
    ∧ score = now + BackoffFn.calculateBackoff (attemptsMade job0 + 1)
                                               (options job0)
    ∧ now ≤ score.
Proof.
  intros Hj Ha Hs Hb. rewrite (WorkerProps.failJob_eq _ _ _ _ _ Hj).
  cbv zeta. rewrite Hs. cbn [snd store]. unfold Worker.retry_tx.
  change (id (set_status Delayed (Worker.failed_attempt job0 error)))
    with (id job0).
  change (options (set_status Delayed (Worker.failed_attempt job0 error)))
    with (options job0).
  change (attemptsMade (set_status Delayed (Worker.failed_attempt job0 error)))
    with (attemptsMade (Worker.failed_attempt job0 error)).
  rewrite WorkerSpec.failed_attempt_attemptsMade.
  eexists. split; [simpl; apply lookup_insert_eq|]. split; [reflexivity|].
  pose proof (BackoffProps.calculateBackoff_nonneg (attemptsMade job0 + 1)
                (options job0) ltac:(lia) Hb). lia.
Qed.

Lemma retry_not_before_now_witness :
  ∃ job0,
    hget_data "a"
      (store (WorkerSpec.dispatched (WorkerSpec.with_attempts_fixed 2 50)))
    = Some job0
    ∧ 0 ≤ attemptsMade job0
    ∧ Worker.shouldRetry (Worker.failed_attempt job0 WorkerSpec.boom) = true
    ∧ ∃ score,
        delayed (store (Worker.failJob 30 "a" WorkerSpec.boom
                          (WorkerSpec.dispatched
                             (WorkerSpec.with_attempts_fixed 2 50))).2)
        !! id job0 = Some score
        ∧ 30 ≤ score.
Proof.
  eexists. split; [reflexivity|].
  assert (Ha : 0 ≤ 0) by lia. split; [exact Ha|]. split; [reflexivity|].
  destruct (retry_not_before_now 30 "a" WorkerSpec.boom
              (WorkerSpec.dispatched (WorkerSpec.with_attempts_fixed 2 50))
              _ eq_refl Ha eq_refl)
    as (score & H1 & _ & H3).
  - intros b [= <-]. simpl. lia.
  - exists score. exact (conj H1 H3).
Defined.



Lemma processDelayedJobs_turn_eq {H : Type} (wk : Worker.t H) (count t : Z)
    (w : World) :
  Worker.isRunning wk && Worker.below_max wk count = true →
  Worker.processDelayedJobs_turn wk count t w
  = (Resolve (Worker.Next
                (count + Z.of_nat (length (Scripts.processDelayed t (store w)).1))),
     mkWorld (Scripts.processDelayed t (store w)).2
             (log w ++ [CallProcessDelayed t; Sleep 1000])).
Proof.
  intros Hg. unfold Worker.processDelayedJobs_turn. rewrite Hg. simpl.
  unfold bind, act, script, ret. simpl. rewrite <- app_assoc. reflexivity.
Qed.

(** X25: a job added with a non-zero delay [d] at clock reading [now']
    is promoted by the first promoter turn taken at a time [t] with
    [0 <= now' + d <= t]: it is then in waiting and no longer delayed,
    and the turn counts it.  A turn taken earlier leaves it delayed
    with score [now' + d] and out of waiting.  Either way the turn
    calls the script once and then sleeps 1000 ms. *)
Theorem delayed_promoted_when_due {H : Type} (wk : Worker.t H) (q : Queue.t)
    (uuid : string) (now now' d count t : Z) (name data : string)
    (options : JobOptions) (w : World) :
  Queue.isReady q = true →
  delay options = Some d → d ≠ 0 →
  Worker.isRunning wk && Worker.below_max wk count = true →
  let w1 := (Queue.add q uuid now now' name data options w).2 in
  let r := Worker.processDelayedJobs_turn wk count t w1 in
  log r.2 = log w1 ++ [CallProcessDelayed t; Sleep 1000]
  ∧ (0 ≤ now' + d ≤ t →
       uuid ∈ waiting (store r.2)
       ∧ delayed (store r.2) !! uuid = None
       ∧ ∃ c, r.1 = Resolve (Worker.Next c) ∧ count + 1 ≤ c)
  ∧ (t < now' + d →
       delayed (store r.2) !! uuid = Some (now' + d)
       ∧ (uuid ∉ waiting (store w) → uuid ∉ waiting (store r.2))).
Proof.
  intros Hready Hd Hnz Hg. cbv zeta.
  rewrite (processDelayedJobs_turn_eq _ _ _ _ Hg).
  rewrite (QueueProps.add_ready_eq _ _ _ _ _ _ _ _ Hready).
  cbn [fst snd store log]. rewrite QueueProps.add_store.
  assert (Ht : truthy_opt_num (delay options) = true).
  { rewrite Hd. simpl. unfold truthy_num.
    destruct (Z.eqb_spec d 0); [contradiction | reflexivity]. }
  rewrite Ht. rewrite Hd. cbn [or_opt_num].
  rewrite BackoffSpec.or_num_nonzero by done.
  set (st1 := mkStore _ _ _ _ _).
  rewrite ScriptsSpec.processDelayed_unfold. cbn [fst snd].
  set (ids := zrangebyscore 0 t (delayed st1)).
  assert (Hin : uuid ∈ ids ↔ 0 ≤ now' + d ∧ now' + d ≤ t).
  { subst ids. rewrite ScriptsSpec.elem_of_zrangebyscore. subst st1. simpl.
    rewrite lookup_insert_eq. split.
    - intros (s & [= <-] & ? & ?). lia.
    - intros [? ?]. exists (now' + d). repeat split; lia. }
  split; [reflexivity|]. split.
  - intros Hdue. apply Hin in Hdue.
    split; [rewrite ScriptsSpec.promote_loop_waiting, elem_of_app,
              elem_of_reverse; by left|].
    split; [rewrite ScriptsSpec.promote_loop_delayed; by rewrite decide_True|].
    eexists. split; [reflexivity|].
    destruct ids as [|i ids']; [by apply elem_of_nil in Hdue|].
    rewrite length_cons. lia.
  - intros Hearly.
    assert (Hnin : uuid ∉ ids) by (rewrite Hin; lia).
    split.
    + rewrite ScriptsSpec.promote_loop_delayed, decide_False by done.
      subst st1. simpl. apply lookup_insert_eq.
    + intros Hw. rewrite ScriptsSpec.promote_loop_waiting, elem_of_app,
        elem_of_reverse. subst st1. simpl. tauto.
Qed.

Lemma delayed_promoted_when_due_witness :
  Queue.isReady (QueueSpec.ready_queue noOptions) = true
  ∧ delay (QueueSpec.with_delay 50) = Some 50
  ∧ 50 ≠ 0
  ∧ 0 ≤ 12 + 50 ≤ 70
  ∧ ("id1" ∈ waiting
       (store (Worker.processDelayedJobs_turn WorkerSpec.running_worker 0 70
                 (Queue.add (QueueSpec.ready_queue noOptions) "id1" 10 12
                            "t" "{}" (QueueSpec.with_delay 50)
                            QueueSpec.fresh_world).2).2)).
Proof.
  assert (Hnz : 50 ≠ 0) by lia.
  assert (Hdue : 0 ≤ 12 + 50 ≤ 70) by lia.
  destruct (delayed_promoted_when_due WorkerSpec.running_worker
              (QueueSpec.ready_queue noOptions) "id1" 10 12 50 0 70 "t" "{}"
              (QueueSpec.with_delay 50) QueueSpec.fresh_world
              eq_refl eq_refl Hnz eq_refl) as (_ & Hp & _).
  destruct (Hp Hdue) as (Hin & _).
  exact (conj eq_refl (conj eq_refl (conj Hnz (conj Hdue Hin)))).
Defined.

End LifecycleProps.

(** ** The execution of one job *)

Module RunProps.
Import Types Redis Effects WorkerRun.

Section WithHandler.

Variable H : Type.
Variable invoke : H → Job → Settled.

Lemma processJob_begin_eq (wk : Worker.t H) (f : H) (jobId : string)
    (w : World) (job0 : Job) :
  Worker.processFn wk = Some f →
  hget_data jobId (store w) = Some job0 →
  processJob_begin wk jobId w
  = (Resolve (Some (set_status Active job0)),
     mkWorld (store w)
             (log w ++ [Emit (EvProcessing (set_status Active job0))])).
Proof.
  intros Hf Hj. unfold processJob_begin. rewrite Hf.
  unfold bind, read. rewrite Hj. reflexivity.
Qed.

Lemma processJob_eq (wk : Worker.t H) (f : H) (now : Z) (jobId : string)
    (w : World) (job0 : Job) :
  Worker.processFn wk = Some f →
  hget_data jobId (store w) = Some job0 →
  processJob invoke wk now jobId w
  = processJob_settle now jobId (set_status Active job0)
      (invoke f (set_status Active job0))
      (mkWorld (store w)
               (log w ++ [Emit (EvProcessing (set_status Active job0))])).
Proof.
  intros Hf Hj. unfold processJob. rewrite Hf. unfold bind at 1.
  rewrite (processJob_begin_eq _ _ _ _ _ Hf Hj). reflexivity.
Qed.

(** X26: one job from enqueue to its end.  On a ready queue with an
    empty waiting list, a job added without delay is the next one
    [moveToActive] returns; [processJob] then emits [processing] with
    the status [active] and, when the handler fulfils, leaves the id in
    neither waiting nor active, with the record deleted if
    [removeOnComplete] is truthy and otherwise stored as [completed]
    with the handler's result; when the handler rejects, the record is
    stored as [delayed] and the id scheduled (a retry is due), or the
    id leaves active with the record deleted or stored as [failed]
    (no retry is due). *)
Theorem job_runs_once (q : Queue.t) (wk : Worker.t H) (f : H)
    (uuid : string) (now now' ts tfail : Z) (name data : string)
    (options : JobOptions) (w : World) :
  Queue.isReady q = true →
  truthy_opt_num (delay options) = false →
  waiting (store w) = [] →
  Worker.processFn wk = Some f →
  let job := Queue.new_job q uuid now name data options in
  let w1 := (Queue.add q uuid now now' name data options w).2 in
  let d := Scripts.moveToActive ts (store w1) in
  let w3 := (processJob invoke wk tfail uuid (mkWorld d.2 (log w1))).2 in
  d.1 = Some uuid
  ∧ (∃ rest, log w3
             = log w1 ++ Emit (EvProcessing (set_status Active job)) :: rest)
  ∧ waiting (store w3) = []
  ∧ (uuid ∉ active (store w3))
  ∧ match invoke f (set_status Active job) with
    | Fulfilled result =>
        delayed (store w3) = delayed (store w)
        ∧ if truthy_flag (removeOnComplete (Types.options job))
          then jobs (store w3) !! uuid = None
          else hget_data uuid (store w3)
               = Some (set_returnValue result (set_status Completed job))
    | Rejected error =>
        let failed := Worker.failed_attempt job error in
        if Worker.shouldRetry failed
        then hget_data uuid (store w3) = Some (set_status Delayed failed)
             ∧ is_Some (delayed (store w3) !! uuid)
        else delayed (store w3) = delayed (store w)
             ∧ if truthy_flag (removeOnFail (Types.options job))
               then jobs (store w3) !! uuid = None
               else hget_data uuid (store w3) = Some (set_status Failed failed)
    end.
Proof.
  intros Hready Hnd Hw Hf. cbv zeta.
  rewrite (QueueProps.add_ready_eq _ _ _ _ _ _ _ _ Hready).
  cbn [fst snd store log]. rewrite QueueProps.add_store, Hnd, Hw.
  set (job := Queue.new_job q uuid now name data options).
  rewrite (ScriptsProps.moveToActive_snoc ts
             (mkStore [uuid] (active (store w)) (delayed (store w))
                      (hset_data uuid job (jobs (store w))) (paused (store w)))
             [] uuid eq_refl).
  cbn [fst snd waiting active delayed jobs paused].
  set (st2 := mkStore _ _ _ _ _).
  assert (Hj : hget_data uuid st2 = Some job).
  { subst st2. unfold hget_data, hset_startedAt, hset_data. simpl.
    rewrite lookup_insert_eq. simpl. rewrite lookup_insert_eq. reflexivity. }
  split; [reflexivity|].
  rewrite (processJob_eq wk f tfail uuid (mkWorld st2 _) job Hf Hj).
  cbn [store log].
  destruct (invoke f (set_status Active job)) as [result|error];
    unfold processJob_settle.
  - unfold Worker.completeJob, multi_exec, bind, act, write.
    cbn [fst snd store log].
    change (Types.options (set_returnValue result
                             (set_status Completed (set_status Active job))))
      with (Types.options job).
    change (id (set_returnValue result
                  (set_status Completed (set_status Active job))))
      with uuid.
    split; [eexists; rewrite <- app_assoc; reflexivity|].
    destruct (truthy_flag (removeOnComplete (Types.options job))); simpl.
    + split; [reflexivity|]. split; [apply QueueSpec.lrem_all_not_elem|].
      split; [reflexivity | apply lookup_delete_eq].
    + split; [reflexivity|]. split; [apply QueueSpec.lrem_all_not_elem|].
      split; [reflexivity|]. unfold hget_data, hset_data. simpl.
      rewrite lookup_insert_eq. reflexivity.
  - assert (Hj' : hget_data uuid
                    (store (mkWorld st2
                              (log w ++
                                 [Multi (Queue.add_tx job now' options);
                                  Emit (EvAdded job)] ++
                                 [Emit (EvProcessing (set_status Active job))])))
                  = Some job) by exact Hj.
    rewrite <- app_assoc.
    rewrite (WorkerProps.failJob_eq tfail uuid error _ job Hj'). cbv zeta.
    destruct (Worker.shouldRetry (Worker.failed_attempt job error));
      cbn [snd store log].
    + split; [eexists; rewrite <- !app_assoc; reflexivity|].
      unfold Worker.retry_tx.
      change (id (set_status Delayed (Worker.failed_attempt job error)))
        with uuid.
      simpl. split; [reflexivity|].
      split; [apply QueueSpec.lrem_all_not_elem|].
      split; [unfold hget_data, hset_data; simpl;
              by rewrite lookup_insert_eq|].
      rewrite lookup_insert_eq. by eexists.
    + split; [eexists; rewrite <- !app_assoc; reflexivity|].
      unfold Worker.terminal_tx.
      change (id (set_status Failed (Worker.failed_attempt job error)))
        with uuid.
      change (Types.options (set_status Failed (Worker.failed_attempt job error)))
        with (Types.options job).
      destruct (truthy_flag (removeOnFail (Types.options job))); simpl.
      * split; [reflexivity|]. split; [apply QueueSpec.lrem_all_not_elem|].
        split; [reflexivity | apply lookup_delete_eq].
      * split; [reflexivity|]. split; [apply QueueSpec.lrem_all_not_elem|].
        split; [reflexivity|]. unfold hget_data, hset_data. simpl.
        rewrite lookup_insert_eq. reflexivity.
Qed.

(** X27: a job removed while its handler runs.  After [processJob]
    has handed the job to the handler and [removeJob] has taken the id
    away, a rejecting handler changes nothing more and emits nothing;
    a fulfilling handler still sends its transaction, which leaves the
    id in no collection and, unless [removeOnComplete] is truthy,
    writes the record back with status [completed].  No event is
    emitted for the job after [removed] in either case. *)
Theorem removed_while_running (wk : Worker.t H) (f : H) (jobId : string)
    (tfail : Z) (w : World) (job0 : Job) :
  Worker.processFn wk = Some f →
  hget_data jobId (store w) = Some job0 →
  id job0 = jobId →
  let started := set_status Active job0 in
  let w2 := (Queue.removeJob jobId (processJob_begin wk jobId w).2).2 in
  (processJob_begin wk jobId w).1 = Resolve (Some started)
  ∧ log w2 = log w ++ [Emit (EvProcessing started);
                       Multi (Queue.removeJob_tx jobId);
                       Emit (EvRemoved jobId)]
  ∧ (∀ error,
       processJob_settle tfail jobId started (Rejected error) w2
       = (Resolve tt, w2))
  ∧ (∀ result,
       let w3 := (processJob_settle tfail jobId started (Fulfilled result)
                                    w2).2 in
       (∃ tx, log w3 = log w2 ++ [Multi tx])
       ∧ (jobId ∉ waiting (store w3)) ∧ (jobId ∉ active (store w3))
       ∧ delayed (store w3) !! jobId = None
       ∧ if truthy_flag (removeOnComplete (options job0))
         then jobs (store w3) !! jobId = None
         else hget_data jobId (store w3)
              = Some (set_returnValue result (set_status Completed job0))).
Proof.
  intros Hf Hj Hid. cbv zeta.
  rewrite (processJob_begin_eq _ _ _ _ _ Hf Hj). cbn [fst snd].
  set (w1 := mkWorld _ _).
  assert (Hj1 : hget_data jobId (store w1) = Some job0) by exact Hj.
  assert (Hrm : Queue.removeJob jobId w1
                = (Resolve tt,
                   mkWorld (exec (Queue.removeJob_tx jobId) (store w))
                           (log w ++ [Emit (EvProcessing (set_status Active job0));
                                      Multi (Queue.removeJob_tx jobId);
                                      Emit (EvRemoved jobId)]))).
  { unfold Queue.removeJob, bind.
    rewrite (QueueSpec.getJob_present _ _ _ Hj1).
    unfold multi_exec, emit, bind, act, write. subst w1. cbn [fst snd store log].
    rewrite <- !app_assoc. reflexivity. }
  rewrite Hrm. cbn [snd]. rewrite QueueSpec.exec_removeJob_tx.
  split; [reflexivity|]. split; [reflexivity|]. split.
  - intros error. unfold processJob_settle, Worker.failJob, bind, read.
    cbn [store]. unfold hget_data. cbn [jobs].
    rewrite lookup_delete_eq. reflexivity.
  - intros result. unfold processJob_settle, Worker.completeJob, multi_exec,
      bind, act, write. cbn [fst snd store log].
    change (options (set_returnValue result
                       (set_status Completed (set_status Active job0))))
      with (options job0).
    change (id (set_returnValue result
                  (set_status Completed (set_status Active job0))))
      with (id job0).
    rewrite Hid.
    split; [eexists; reflexivity|].
    destruct (truthy_flag (removeOnComplete (options job0))); simpl.
    + split; [apply QueueSpec.lrem_all_not_elem|].
      split; [unfold lrem; simpl; rewrite list_filter_filter;
              intros Hin; apply list_elem_of_filter in Hin; tauto|].
      split; apply lookup_delete_eq.
    + split; [apply QueueSpec.lrem_all_not_elem|].
      split; [unfold lrem; simpl; rewrite list_filter_filter;
              intros Hin; apply list_elem_of_filter in Hin; tauto|].
      split; [apply lookup_delete_eq|].
      unfold hget_data, hset_data. simpl. rewrite lookup_insert_eq.
      reflexivity.
Qed.

End WithHandler.

Lemma job_runs_once_witness :
  Queue.isReady (QueueSpec.ready_queue noOptions) = true
  ∧ truthy_opt_num (delay noOptions) = false
  ∧ waiting (store QueueSpec.fresh_world) = []
  ∧ Worker.processFn WorkerSpec.running_worker = Some tt
  ∧ (Scripts.moveToActive 20
       (store (Queue.add (QueueSpec.ready_queue noOptions) "a" 10 10 "t" "{}"
                         noOptions QueueSpec.fresh_world).2)).1
    = Some "a".
Proof.
  pose proof (job_runs_once unit (λ _ _, Fulfilled "ok")
                (QueueSpec.ready_queue noOptions) WorkerSpec.running_worker tt
                "a" 10 10 20 30 "t" "{}" noOptions QueueSpec.fresh_world
                eq_refl eq_refl eq_refl eq_refl) as Hrun.
  cbv zeta in Hrun. destruct Hrun as (H1 & _).
  exact (conj eq_refl (conj eq_refl (conj eq_refl (conj eq_refl H1)))).
Defined.

Lemma removed_while_running_witness :
  Worker.processFn WorkerSpec.running_worker = Some tt
  ∧ hget_data "a" (store Invariants.one_active) = Some QueueSpec.sample_job
  ∧ id QueueSpec.sample_job = "a"
  ∧ processJob_settle 30 "a" (set_status Active QueueSpec.sample_job)
      (Rejected WorkerSpec.boom)
      (Queue.removeJob "a"
         (processJob_begin WorkerSpec.running_worker "a"
                           Invariants.one_active).2).2
    = (Resolve tt,
       (Queue.removeJob "a"
          (processJob_begin WorkerSpec.running_worker "a"
                            Invariants.one_active).2).2).
Proof.
  pose proof (removed_while_running unit (λ _ _, Fulfilled "ok")
                WorkerSpec.running_worker tt "a" 30
                Invariants.one_active QueueSpec.sample_job
                eq_refl eq_refl eq_refl) as Hrun.
  cbv zeta in Hrun. destruct Hrun as (_ & _ & Hrej & _).
  exact (conj eq_refl (conj eq_refl (conj eq_refl (Hrej WorkerSpec.boom)))).
Defined.

End RunProps.

(** ** The connection registry *)

Module RedisConnectionProps.
Import Types RedisConnection.

Lemma map_get_set_eq (k : string) (c : Client) (m : list (string * Client)) :
  map_get k (map_set k c m) = Some c.
Proof.
  induction m as [|[k' c'] m IH]; simpl.
  - by rewrite decide_True.
  - destruct (decide (k' = k)) as [->|Hne]; simpl.
    + by rewrite decide_True.
    + by rewrite decide_False.
Qed.

Lemma map_get_set_ne (k k' : string) (c : Client) (m : list (string * Client)) :
  k ≠ k' → map_get k' (map_set k c m) = map_get k' m.
Proof.
  intros Hne. induction m as [|[k0 c0] m IH]; simpl.
  - by rewrite decide_False.
  - destruct (decide (k0 = k)) as [->|Hne0]; simpl.
    + by rewrite !decide_False.
    + destruct (decide (k0 = k')); [reflexivity | exact IH].
Qed.

(** X28: the registry shares one client per connection key.  After a
    [createClient] that found the client ready, any later
    [createClient] whose options give the same key returns that very
    client, without constructing or connecting another one and
    whatever a new client would have signalled; the clients cached
    under other keys stay as they were.  When the key was new, the
    client is a newly constructed one. *)
Theorem createClient_shared (connection connection' : option ConnectionOptions)
    (signal : Signal) (r : Registry) :
  getConnectionKey connection' = getConnectionKey connection →
  let r1 := (createClient connection Ready r).1.2 in
  ∃ client,
    (createClient connection Ready r).1.1 = inr client
    ∧ createClient connection' signal r1 = (inr client, r1, [])
    ∧ (∀ k, k ≠ getConnectionKey connection →
            map_get k (instances r1) = map_get k (instances r))
    ∧ (map_get (getConnectionKey connection) (instances r) = None →
         handle client = constructed r
         ∧ (createClient connection Ready r).2 = [Connected client]).
Proof.
  intros Hkey. cbv zeta.
  destruct (map_get (getConnectionKey connection) (instances r))
    as [cached|] eqn:Hget.
  - assert (Hrun : createClient connection Ready r = (inr cached, r, []))
      by (unfold createClient; by rewrite Hget).
    rewrite Hrun. cbn [fst snd]. exists cached. split; [reflexivity|]. split.
    + unfold createClient. rewrite Hkey, Hget. reflexivity.
    + split; [reflexivity | discriminate].
  - set (client := mkClient (constructed r)
                     (or_opt_string (host_of connection) "localhost")
                     (or_opt_num (port_of connection) 6379)
                     (password_of connection)
                     ["moveToActive"; "processDelayed"]).
    assert (Hrun : createClient connection Ready r
                   = (inr client,
                      mkRegistry (map_set (getConnectionKey connection) client
                                          (instances r))
                                 (S (constructed r)),
                      [Connected client]))
      by (unfold createClient; by rewrite Hget).
    rewrite Hrun. cbn [fst snd]. exists client. split; [reflexivity|]. split.
    + unfold createClient. rewrite Hkey. cbn [instances].
      rewrite map_get_set_eq. reflexivity.
    + split; [|intros _; repeat split; reflexivity].
      intros k Hk. cbn [instances]. by apply map_get_set_ne.
Qed.

Definition default_endpoint : option ConnectionOptions :=
  Some (mkConnectionOptions (Some "localhost") (Some 6379) None).

Lemma createClient_shared_witness :
  getConnectionKey default_endpoint = getConnectionKey None
  ∧ ∃ client,
      (createClient None Ready no_instances).1.1 = inr client
      ∧ createClient default_endpoint (Errored None)
          (createClient None Ready no_instances).1.2
        = (inr client, (createClient None Ready no_instances).1.2, []).
Proof.
  destruct (createClient_shared None default_endpoint (Errored None)
              no_instances eq_refl) as (client & H1 & H2 & _).
  exact (conj eq_refl (ex_intro _ client (conj H1 H2))).
Defined.

(** X29: a connection that fails is not cached.  For a key that is not
    in the registry, [createClient] with a client that signals an error
    rejects with a queue-category error carrying the error's message
    (or [Unknown error]), leaves the cached clients as they were, and
    the next [createClient] for that key constructs another client. *)
Theorem createClient_failure_not_cached (connection : option ConnectionOptions)
    (error : option string) (r : Registry) :
  map_get (getConnectionKey connection) (instances r) = None →
  let failed := createClient connection (Errored error) r in
  failed.1.1
  = inl (QueueError ("Failed to connect to Redis: "
                     +:+ default "Unknown error" error))
  ∧ instances failed.1.2 = instances r
  ∧ failed.2 = []
  ∧ ∃ client,
      (createClient connection Ready failed.1.2).1.1 = inr client
      ∧ handle client = S (constructed r)
      ∧ (createClient connection Ready failed.1.2).2 = [Connected client].
Proof.
  intros Hget. cbv zeta.
  assert (Hrun : createClient connection (Errored error) r
                 = (inl (QueueError ("Failed to connect to Redis: "
                                     +:+ default "Unknown error" error)),
                    mkRegistry (instances r) (S (constructed r)),
                    []))
    by (unfold createClient; by rewrite Hget).
  rewrite Hrun. cbn [fst snd instances].
  split; [reflexivity|]. split; [reflexivity|]. split; [reflexivity|].
  unfold createClient. cbn [instances constructed]. rewrite Hget.
  eexists. repeat split; reflexivity.
Qed.

Lemma createClient_failure_not_cached_witness :
  map_get (getConnectionKey None) (instances no_instances) = None
  ∧ (createClient None (Errored (Some "ECONNREFUSED")) no_instances).1.1
    = inl (QueueError "Failed to connect to Redis: ECONNREFUSED").
Proof.
  destruct (createClient_failure_not_cached None (Some "ECONNREFUSED")
              no_instances eq_refl) as (H1 & _).
  exact (conj eq_refl H1).
Defined.

(** X30: [closeAll] sends [quit] to every cached client once, in the
    order the clients were cached, and empties the registry: the next
    [createClient] for any key constructs a new client rather than
    returning a closed one. *)
Theorem closeAll_empties (connection : option ConnectionOptions)
    (r : Registry) :
  let closed := closeAll r in
  closed.2 = QuitSent <$> (instances r).*2
  ∧ instances closed.1 = []
  ∧ length closed.2 = length (instances r)
  ∧ ∃ client,
      createClient connection Ready closed.1
      = (inr client,
         mkRegistry [(getConnectionKey connection, client)]
                    (S (constructed r)),
         [Connected client])
      ∧ handle client = constructed r.
Proof.
  cbv zeta. unfold closeAll. cbn [fst snd instances].
  split; [reflexivity|]. split; [reflexivity|].
  split; [by rewrite !length_fmap|].
  eexists. split; reflexivity.
Qed.

End RedisConnectionProps.
